(** * ngx-link-preview: the preview-fetch orchestration of
      [NgxLinkPreviewComponent], embedded in Rocq.

    Source: projects/ngx-link-preview/src/lib/components/ngx-link-preview/
    ngx-link-preview.component.ts

    JavaScript strings are sequences of UTF-16 code units; they are modelled
    as [list N].  Exceptions are modelled by the [outcome] type, and the
    component's mutable fields by a state-and-exception monad. *)

From Stdlib Require Import NArith ZArith Ascii String.
From Stdlib Require Import Lia ZifyNat ZifyN ZifyBool.
From stdpp Require Import gmap list.

Open Scope N_scope.

(** ** JavaScript strings and exceptions *)

Abbreviation jsstring := (list N).

(** The code units of an ASCII literal. *)
Definition js (s : string) : jsstring :=
  map N_of_ascii (list_ascii_of_string s).

Inductive JsError :=
| Error_ (msg : jsstring)      (* throw new Error(msg) *)
| TypeError
| InvalidCharacterError        (* DOMException raised by btoa / atob *)
| URIError.

Inductive outcome (A : Type) :=
| Ret (a : A)
| Throw (e : JsError).
Arguments Ret {A} a.
Arguments Throw {A} e.

Definition obind {A B} (o : outcome A) (f : A -> outcome B) : outcome B :=
  match o with
  | Ret a => f a
  | Throw e => Throw e
  end.

(** [String.prototype.startsWith] *)
Fixpoint startsWith (s p : jsstring) {struct p} : bool :=
  match p, s with
  | [], _ => true
  | _ :: _, [] => false
  | c :: p', d :: s' => (c =? d) && startsWith s' p'
  end.

(** Character ranges used below. *)
Definition in_range (lo hi c : N) : bool := (lo <=? c) && (c <=? hi).
Definition is_upper (c : N) : bool := in_range 65 90 c.
Definition is_lower (c : N) : bool := in_range 97 122 c.
Definition is_digit (c : N) : bool := in_range 48 57 c.
Definition is_alnum (c : N) : bool := is_upper c || is_lower c || is_digit c.
Definition one_of (s : string) (c : N) : bool :=
  existsb (N.eqb c) (js s).

(** ** base64: [btoa] and [atob] (HTML standard, forgiving-base64) *)

(** The 64 characters [A-Za-z0-9+/], by index. *)
Definition b64_char (i : N) : N :=
  if i <? 26 then 65 + i
  else if i <? 52 then 97 + (i - 26)
  else if i <? 62 then 48 + (i - 52)
  else if i =? 62 then 43
  else 47.

Definition b64_index (c : N) : option N :=
  if is_upper c then Some (c - 65)
  else if is_lower c then Some (c - 97 + 26)
  else if is_digit c then Some (c - 48 + 52)
  else if c =? 43 then Some 62
  else if c =? 47 then Some 63
  else None.

Definition is_b64_char (c : N) : bool :=
  match b64_index c with Some _ => true | None => false end.

Definition pad : N := 61.      (* '=' *)

(** Three bytes give four sextets; one or two trailing bytes are padded. *)
Fixpoint b64_encode (l : list N) : jsstring :=
  match l with
  | [] => []
  | [a] =>
      [b64_char (a / 4); b64_char ((a mod 4) * 16); pad; pad]
  | [a; b] =>
      [b64_char (a / 4); b64_char ((a mod 4) * 16 + b / 16);
       b64_char ((b mod 16) * 4); pad]
  | a :: b :: c :: r =>
      b64_char (a / 4) :: b64_char ((a mod 4) * 16 + b / 16)
      :: b64_char ((b mod 16) * 4 + c / 64) :: b64_char (c mod 64)
      :: b64_encode r
  end.

(** A string [btoa] accepts: every code unit is at most U+00FF. *)
Definition latin1 (s : jsstring) : bool := forallb (fun c => c <=? 255) s.

Definition btoa (s : jsstring) : outcome jsstring :=
  if latin1 s then Ret (b64_encode s) else Throw InvalidCharacterError.

Definition is_ascii_whitespace (c : N) : bool :=
  (c =? 9) || (c =? 10) || (c =? 12) || (c =? 13) || (c =? 32).

(** Removes one or two trailing ['='] (used when the length is a multiple
    of four). *)
Fixpoint drop_padding (l : jsstring) : jsstring :=
  match l with
  | [] => []
  | [a] => if a =? pad then [] else [a]
  | [a; b] => if b =? pad then (if a =? pad then [] else [a]) else [a; b]
  | a :: (_ :: _ :: _) as l' => a :: drop_padding l'
  end.

(** Four sextets give three bytes; of a trailing group of two (three)
    sextets the last four (two) bits are discarded. *)
Fixpoint b64_decode (l : list N) : list N :=
  match l with
  | s0 :: s1 :: s2 :: s3 :: r =>
      (s0 * 4 + s1 / 16) :: ((s1 mod 16) * 16 + s2 / 4)
      :: ((s2 mod 4) * 64 + s3) :: b64_decode r
  | [s0; s1; s2] => [s0 * 4 + s1 / 16; (s1 mod 16) * 16 + s2 / 4]
  | [s0; s1] => [s0 * 4 + s1 / 16]
  | _ => []
  end.

Fixpoint b64_indices (l : jsstring) : option (list N) :=
  match l with
  | [] => Some []
  | c :: l' =>
      match b64_index c, b64_indices l' with
      | Some i, Some r => Some (i :: r)
      | _, _ => None
      end
  end.

Definition atob (s : jsstring) : outcome jsstring :=
  let data := filter (fun c => is_ascii_whitespace c = false) s in
  let data := if (N.of_nat (length data)) mod 4 =? 0
              then drop_padding data else data in
  if (N.of_nat (length data)) mod 4 =? 1 then Throw InvalidCharacterError
  else match b64_indices data with
       | None => Throw InvalidCharacterError
       | Some sextets => Ret (b64_decode sextets)
       end.

(** ** [encodeURI] and [decodeURI] (ECMAScript, Encode and Decode) *)

Definition uri_always_unescaped (c : N) : bool :=
  is_alnum c || one_of "_-.!~*'()" c.

(** [encodeURI] leaves these unescaped as well: the reserved set and [#]. *)
Definition uri_reserved_hash (c : N) : bool := one_of ";/?:@&=+$,#" c.

Definition is_lead_surrogate (c : N) : bool := in_range 55296 56319 c.
Definition is_trail_surrogate (c : N) : bool := in_range 56320 57343 c.

Definition utf8_octets (cp : N) : list N :=
  if cp <? 128 then [cp]
  else if cp <? 2048 then [192 + cp / 64; 128 + cp mod 64]
  else if cp <? 65536 then
    [224 + cp / 4096; 128 + (cp / 64) mod 64; 128 + cp mod 64]
  else
    [240 + cp / 262144; 128 + (cp / 4096) mod 64;
     128 + (cp / 64) mod 64; 128 + cp mod 64].

Definition hex_digit (d : N) : N := if d <? 10 then 48 + d else 55 + d.

Definition percent (octets : list N) : jsstring :=
  concat (map (fun b => [37; hex_digit (b / 16); hex_digit (b mod 16)]) octets).

Fixpoint uri_encode (unescaped : N -> bool) (s : jsstring) : outcome jsstring :=
  match s with
  | [] => Ret []
  | c :: s' =>
      if unescaped c then
        obind (uri_encode unescaped s') (fun r => Ret (c :: r))
      else if is_lead_surrogate c then
        match s' with
        | d :: s'' =>
            if is_trail_surrogate d then
              let cp := (c - 55296) * 1024 + (d - 56320) + 65536 in
              obind (uri_encode unescaped s'')
                    (fun r => Ret (percent (utf8_octets cp) ++ r))
            else Throw URIError
        | [] => Throw URIError
        end
      else if is_trail_surrogate c then Throw URIError
      else
        obind (uri_encode unescaped s')
              (fun r => Ret (percent (utf8_octets c) ++ r))
  end.

Definition encodeURI (s : jsstring) : outcome jsstring :=
  uri_encode (fun c => uri_always_unescaped c || uri_reserved_hash c) s.

Definition hex_value (c : N) : option N :=
  if is_digit c then Some (c - 48)
  else if in_range 65 70 c then Some (c - 55)
  else if in_range 97 102 c then Some (c - 87)
  else None.

(** Decoding first splits the string into plain code units and escaped
    octets, then joins the octets of each UTF-8 sequence. *)
Inductive uri_token :=
| Plain (c : N)
| Escaped (octet : N).

Fixpoint uri_tokens (s : jsstring) : option (list uri_token) :=
  match s with
  | [] => Some []
  | c :: s' =>
      if c =? 37 then
        match s' with
        | h :: l :: r =>
            match hex_value h, hex_value l, uri_tokens r with
            | Some x, Some y, Some ts => Some (Escaped (x * 16 + y) :: ts)
            | _, _, _ => None
            end
        | _ => None
        end
      else
        match uri_tokens s' with
        | Some ts => Some (Plain c :: ts)
        | None => None
        end
  end.

Definition is_continuation (b : N) : bool := in_range 128 191 b.

Definition utf16_units (cp : N) : jsstring :=
  if cp <? 65536 then [cp]
  else [55296 + (cp - 65536) / 1024; 56320 + (cp - 65536) mod 1024].

Fixpoint uri_join (preserve : N -> bool) (ts : list uri_token)
  : option jsstring :=
  match ts with
  | [] => Some []
  | Plain c :: r => (fun s => c :: s) <$> uri_join preserve r
  | Escaped b :: r =>
      if b <? 128 then
        (fun s => (if preserve b
                   then [37; hex_digit (b / 16); hex_digit (b mod 16)]
                   else [b]) ++ s) <$> uri_join preserve r
      else if in_range 194 223 b then
        match r with
        | Escaped b1 :: r1 =>
            if is_continuation b1 then
              (fun s => ((b - 192) * 64 + (b1 - 128)) :: s)
                <$> uri_join preserve r1
            else None
        | _ => None
        end
      else if in_range 224 239 b then
        match r with
        | Escaped b1 :: Escaped b2 :: r2 =>
            let cp := (b - 224) * 4096 + (b1 - 128) * 64 + (b2 - 128) in
            if is_continuation b1 && is_continuation b2
               && (2048 <=? cp) && negb (in_range 55296 57343 cp) then
              (fun s => cp :: s) <$> uri_join preserve r2
            else None
        | _ => None
        end
      else if in_range 240 244 b then
        match r with
        | Escaped b1 :: Escaped b2 :: Escaped b3 :: r3 =>
            let cp := (b - 240) * 262144 + (b1 - 128) * 4096
                      + (b2 - 128) * 64 + (b3 - 128) in
            if is_continuation b1 && is_continuation b2 && is_continuation b3
               && in_range 65536 1114111 cp then
              (fun s => utf16_units cp ++ s) <$> uri_join preserve r3
            else None
        | _ => None
        end
      else None
  end.

Definition uri_decode (preserve : N -> bool) (s : jsstring) : outcome jsstring :=
  match uri_tokens s with
  | None => Throw URIError
  | Some ts =>
      match uri_join preserve ts with
      | None => Throw URIError
      | Some r => Ret r
      end
  end.

Definition decodeURI : jsstring -> outcome jsstring :=
  uri_decode uri_reserved_hash.

Definition decodeURIComponent : jsstring -> outcome jsstring :=
  uri_decode (fun _ => false).

(** ** The safe key encoder (component.ts, lines 148-150) *)

Definition encodeUrlSafe (url : jsstring) : outcome jsstring :=
  obind (btoa url) encodeURI.

(** ** Regular expressions: the fragment used by the link pattern

    Flags [g], [i], [m] without [u].  With [i] and without [u] a code unit
    is canonicalised to its upper case, except that a non-ASCII unit never
    becomes ASCII: an ASCII pattern character therefore matches exactly its
    two ASCII cases.  [m] only changes [^] and [$], which do not occur. *)

Inductive regex :=
| Lit (w : jsstring)                               (* literal characters *)
| Class (cls : N -> bool) (lo : nat) (hi : option nat)
                                                   (* [cls]{lo,hi}, greedy *)
| Opt (r : regex)                                  (* (r)?, greedy *)
| Cat (r1 r2 : regex)
| WordBoundary.                                    (* \b *)

Definition swap_case (c : N) : N :=
  if is_lower c then c - 32 else if is_upper c then c + 32 else c.

Definition ci_eq (c d : N) : bool := (d =? c) || (d =? swap_case c).

Definition ci_class (cls : N -> bool) (d : N) : bool :=
  cls d || cls (swap_case d).

Definition is_word_char (o : option N) : bool :=
  match o with
  | Some c => is_alnum c || (c =? 95)
  | None => false
  end.

(** The code unit before the current position, after reading [w]. *)
Definition last_or (prev : option N) (w : jsstring) : option N :=
  match last w with
  | Some c => Some c
  | None => prev
  end.

Section Matcher.
Context {A : Type}.

(** A matcher state is the previous code unit and the remaining input;
    a continuation receives the state after the match. *)
Definition cont := option N -> jsstring -> option A.

Fixpoint lit_match (w : jsstring) (prev : option N) (s : jsstring)
         (k : cont) : option A :=
  match w with
  | [] => k prev s
  | c :: w' =>
      match s with
      | d :: s' => if ci_eq c d then lit_match w' (Some d) s' k else None
      | [] => None
      end
  end.

(** Greedy repetition of a one-character class with backtracking. *)
Fixpoint rep_class (cls : N -> bool) (lo : nat) (hi : option nat)
         (prev : option N) (s : jsstring) (k : cont) : option A :=
  let stop := match lo with O => k prev s | S _ => None end in
  match s with
  | d :: s' =>
      if cls d && negb (bool_decide (hi = Some O)) then
        match rep_class cls (pred lo) (pred <$> hi) (Some d) s' k with
        | Some a => Some a
        | None => stop
        end
      else stop
  | [] => stop
  end.
End Matcher.

Fixpoint rmatch {A} (r : regex) (prev : option N) (s : jsstring)
         (k : option N -> jsstring -> option A) : option A :=
  match r with
  | Lit w => lit_match w prev s k
  | Class cls lo hi => rep_class (ci_class cls) lo hi prev s k
  | Opt r1 =>
      match rmatch r1 prev s k with
      | Some a => Some a
      | None => k prev s
      end
  | Cat r1 r2 => rmatch r1 prev s (fun p s' => rmatch r2 p s' k)
  | WordBoundary =>
      if xorb (is_word_char prev) (is_word_char (head s)) then k prev s
      else None
  end.

(** One attempt at the current position: the input left after the match. *)
Definition match_here (re : regex) (prev : option N) (s : jsstring)
  : option jsstring :=
  rmatch re prev s (fun _ rest => Some rest).

(** All matches from left to right ([String.prototype.match] with [g]).
    [skip] counts the code units of the last match still to be passed; after
    an empty match the search advances by one code unit. *)
Fixpoint match_all (re : regex) (skip : nat) (prev : option N) (s : jsstring)
  : list jsstring :=
  let next n := match s with
                | [] => []
                | c :: s' => match_all re n (Some c) s'
                end in
  match skip with
  | S n => next n
  | O =>
      match match_here re prev s with
      | Some rest =>
          let n := (length s - length rest)%nat in
          take n s :: next (pred n)
      | None => next O
      end
  end.

(** [msg.match(re)]: [null] when nothing matches. *)
Definition js_match (re : regex) (msg : jsstring) : option (list jsstring) :=
  match match_all re 0 None msg with
  | [] => None
  | ms => Some ms
  end.

Declare Scope regex_scope.
Delimit Scope regex_scope with re.
Infix "·" := Cat (at level 40, left associativity) : regex_scope.

(** The pattern of [parseStringForLinks], with flags [gim]:
      https?:\/\/  (www\.)?  [-a-zA-Z0-9@:%._+~#=]{1,256}  \.
      [a-zA-Z0-9()]{1,6}  \b  ([-a-zA-Z0-9()@:%_+.~#?&\/=]* ) *)
Definition host_class (c : N) : bool := is_alnum c || one_of "-@:%._+~#=" c.
Definition tld_class (c : N) : bool := is_alnum c || one_of "()" c.
Definition path_class (c : N) : bool :=
  is_alnum c || one_of "-()@:%_+.~#?&/=" c.

Definition url_regex : regex :=
  (Lit (js "http") · Opt (Lit (js "s")) · Lit (js "://")
   · Opt (Lit (js "www") · Lit (js "."))
   · Class host_class 1 (Some 256%nat) · Lit (js ".")
   · Class tld_class 1 (Some 6%nat) · WordBoundary
   · Class path_class 0 None)%re.

(** ** Parse string for links (component.ts, lines 167-177)

    [msg.match] raises a TypeError when [msg] is [null] or [undefined]. *)
Definition parseStringForLinks (msg : option jsstring)
  : outcome (list jsstring) :=
  match msg with
  | None => Throw TypeError
  | Some m =>
      match js_match url_regex m with
      | Some links => Ret links
      | None => Ret []
      end
  end.

(** ** The component: data model *)

(** Modelled from the spec: the interface [OpenGraphMetaData] is not among
    the sources; section 3 gives the attributes of a metadata record, of
    which the component reads [p['og:image']] and [p.source].  An absent
    attribute reads as [undefined]. *)
Record OpenGraphMetaData := {
  title : option jsstring;
  description : option jsstring;
  siteName : option jsstring;
  og_image : option jsstring;          (* p['og:image'] *)
  url : option jsstring;
  source : option jsstring
}.

(** An observable returned by [getApiEndpoint$] is modelled by the values
    it emits while [subscribe] runs; what it emits later is the event
    [Emit] below. *)
Definition Observable := list OpenGraphMetaData.

(** The [@Input()] fields read by [init]. *)
Record Inputs := {
  links : option (list jsstring);
  parseForLinksStr : option jsstring;
  getApiEndpoint : option (jsstring -> Observable);
  apiRoute : option jsstring;
  queryParamName : jsstring;
  useCache : bool
}.

(** The mutable state: the component's own fields, the two services, and a
    record of what passed between the component and the injected request
    function:
    - [requests]: every requestUrl passed to [getApiEndpoint$], oldest first;
    - [subscriptions]: the encodedLink of every subscribed callback (none is
      ever unsubscribed);
    - [completed]: every value passed to a subscribed callback, with its
      encodedLink, oldest first. *)
Record State := {
  scannedLinks : list jsstring;
  previews : list OpenGraphMetaData;
  cacheSvc : gmap jsstring OpenGraphMetaData;
  loadingMgr : gset jsstring;
  requests : list jsstring;
  subscriptions : list jsstring;
  completed : list (jsstring * OpenGraphMetaData)
}.

Definition set_scannedLinks (v : list jsstring) (s : State) : State :=
  {| scannedLinks := v; previews := previews s;
     cacheSvc := cacheSvc s; loadingMgr := loadingMgr s;
     requests := requests s; subscriptions := subscriptions s;
     completed := completed s |}.
Definition set_previews (v : list OpenGraphMetaData) (s : State) : State :=
  {| scannedLinks := scannedLinks s; previews := v;
     cacheSvc := cacheSvc s; loadingMgr := loadingMgr s;
     requests := requests s; subscriptions := subscriptions s;
     completed := completed s |}.
Definition set_cacheSvc (v : gmap jsstring OpenGraphMetaData) (s : State)
  : State :=
  {| scannedLinks := scannedLinks s; previews := previews s;
     cacheSvc := v; loadingMgr := loadingMgr s;
     requests := requests s; subscriptions := subscriptions s;
     completed := completed s |}.
Definition set_loadingMgr (v : gset jsstring) (s : State) : State :=
  {| scannedLinks := scannedLinks s; previews := previews s;
     cacheSvc := cacheSvc s; loadingMgr := v;
     requests := requests s; subscriptions := subscriptions s;
     completed := completed s |}.
Definition set_requests (v : list jsstring) (s : State) : State :=
  {| scannedLinks := scannedLinks s; previews := previews s;
     cacheSvc := cacheSvc s; loadingMgr := loadingMgr s;
     requests := v; subscriptions := subscriptions s;
     completed := completed s |}.
Definition set_subscriptions (v : list jsstring) (s : State) : State :=
  {| scannedLinks := scannedLinks s; previews := previews s;
     cacheSvc := cacheSvc s; loadingMgr := loadingMgr s;
     requests := requests s; subscriptions := v;
     completed := completed s |}.
Definition set_completed (v : list (jsstring * OpenGraphMetaData)) (s : State)
  : State :=
  {| scannedLinks := scannedLinks s; previews := previews s;
     cacheSvc := cacheSvc s; loadingMgr := loadingMgr s;
     requests := requests s; subscriptions := subscriptions s;
     completed := v |}.

(** ** State and exception monad *)

Definition M (A : Type) : Type := State -> State * outcome A.

Definition ret {A} (a : A) : M A := fun s => (s, Ret a).
Definition throw {A} (e : JsError) : M A := fun s => (s, Throw e).
Definition lift {A} (o : outcome A) : M A := fun s => (s, o).
Definition bind {A B} (m : M A) (f : A -> M B) : M B :=
  fun s =>
    match m s with
    | (s', Ret a) => f a s'
    | (s', Throw e) => (s', Throw e)
    end.
Definition gets {A} (f : State -> A) : M A := fun s => (s, Ret (f s)).
Definition modify (f : State -> State) : M unit := fun s => (f s, Ret tt).

Declare Scope js_scope.
Delimit Scope js_scope with js.
Notation "x <- m ;; k" := (bind m (fun x => k))
  (at level 100, m at next level, right associativity) : js_scope.
Notation "m ;; k" := (bind m (fun _ => k))
  (at level 100, right associativity) : js_scope.
Open Scope js_scope.

(** [for (const x of l) body(x)] *)
Fixpoint for_of {A} (l : list A) (body : A -> M unit) : M unit :=
  match l with
  | [] => ret tt
  | x :: l' => body x ;; for_of l' body
  end.

(** The state after running [m], and its outcome. *)
Definition exec {A} (m : M A) (s : State) : State := fst (m s).
Definition result {A} (m : M A) (s : State) : outcome A := snd (m s).

(** String concatenation converts [undefined] to text. *)
Definition to_string (o : option jsstring) : jsstring :=
  default (js "undefined") o.

(** A string is truthy when it is present and not empty. *)
Definition truthy (o : option jsstring) : bool :=
  match o with
  | Some (_ :: _) => true
  | _ => false
  end.

(** ** The two services used by the component *)

(** Modelled from the spec: [NgxLinkPreviewCacheService] (section 4.3) is
    not among the sources; [getCacheItem] is a lookup without side
    effects. *)
Definition getCacheItem (key : jsstring) : M (option OpenGraphMetaData) :=
  gets (fun s => cacheSvc s !! key).

(** Modelled from the spec: [updateCacheItem] of the same service inserts
    the value under the key or overwrites the value stored there
    (section 4.3). *)
Definition updateCacheItem (key : jsstring) (value : OpenGraphMetaData)
  : M unit :=
  modify (fun s => set_cacheSvc (<[key := value]> (cacheSvc s)) s).

(** Modelled from the spec: [NgxLinkPreviewLoadingManager] (section 4.4) is
    not among the sources; the pending keys form a set and [addTask] marks
    a key pending, twice as once. *)
Definition addTask (key : jsstring) : M unit :=
  modify (fun s => set_loadingMgr ({[key]} ∪ loadingMgr s) s).

(** Modelled from the spec: [removeTask] of the same manager clears the key
    and does nothing for a key that is not pending (section 4.4). *)
Definition removeTask (key : jsstring) : M unit :=
  modify (fun s => set_loadingMgr (loadingMgr s ∖ {[key]}) s).

(** Modelled from the spec: the signal [hasPendingJobs$] of the same
    manager is [true] exactly while the pending set is not empty
    (section 4.4). *)
Definition hasPendingJobs (s : State) : bool :=
  bool_decide (loadingMgr s ≠ ∅).

(** ** The component: operations *)

(** [this.previews.push(p)] *)
Definition push_preview (p : OpenGraphMetaData) : M unit :=
  modify (fun s => set_previews (previews s ++ [p]) s).

(** Check required input parameters (lines 155-162). *)
Definition checkInputParameters (i : Inputs) : M unit :=
  if negb (truthy (apiRoute i)) then
    throw (Error_ (js "<ngx-link-preview></ngx-link-preview> Missing [apiRoute] input parameter"))
  else if negb (bool_decide (is_Some (getApiEndpoint i))) then
    throw (Error_ (js "<ngx-link-preview></ngx-link-preview> Missing [getApiEndpoint$] input parameter"))
  else ret tt.

(** The statements of the callback passed to [subscribe], each a call on a
    service or on the visible list. *)
Inductive call :=
| UpdateCacheItem (key : jsstring) (value : OpenGraphMetaData)
                                  (* this.cacheSvc.updateCacheItem(key, value) *)
| RemoveTask (key : jsstring)     (* this.loadingMgr.removeTask(key) *)
| Push (p : OpenGraphMetaData).   (* this.previews.push(p) *)

Definition perform (c : call) : M unit :=
  match c with
  | UpdateCacheItem key value => updateCacheItem key value
  | RemoveTask key => removeTask key
  | Push p => push_preview p
  end.

(** The body of the callback (lines 127-129), statement by statement. *)
Definition subscriber_body (encodedLink : jsstring) (resp : OpenGraphMetaData)
  : list call :=
  [UpdateCacheItem encodedLink resp;
   RemoveTask encodedLink;
   Push resp].

(** The callback passed to [subscribe] (lines 126-130) runs its statements
    one after the other. *)
Definition subscriber (encodedLink : jsstring) (resp : OpenGraphMetaData)
  : M unit :=
  for_of (subscriber_body encodedLink resp) perform.


(** An observable emits [resp] to the callback subscribed for
    [encodedLink]. *)
Definition emit (encodedLink : jsstring) (resp : OpenGraphMetaData) : M unit :=
  subscriber encodedLink resp ;;
  modify (fun s => set_completed (completed s ++ [(encodedLink, resp)]) s).

(** [this.getApiEndpoint$(requestUrl).subscribe(callback)] *)
Definition request (i : Inputs) (requestUrl encodedLink : jsstring) : M unit :=
  match getApiEndpoint i with
  | None => throw TypeError
  | Some f =>
      modify (fun s => set_requests (requests s ++ [requestUrl]) s) ;;
      modify (fun s => set_subscriptions (subscriptions s ++ [encodedLink]) s) ;;
      for_of (f requestUrl) (emit encodedLink)
  end.

Definition requestUrl_of (i : Inputs) (encodedLink : jsstring) : jsstring :=
  to_string (apiRoute i) ++ js "?" ++ queryParamName i ++ js "="
  ++ encodedLink.

(** The body of the loop over the scanned links (lines 118-131). *)
Definition preview_link (i : Inputs) (link : jsstring) : M unit :=
  encodedLink <- lift (encodeUrlSafe link) ;;
  let requestUrl := requestUrl_of i encodedLink in
  (* this.useCache && this.cacheSvc.getCacheItem(encodedLink) *)
  cached <- (if useCache i then getCacheItem encodedLink else ret None) ;;
  match cached with
  | Some p => push_preview p
  | None =>
      addTask encodedLink ;;
      request i requestUrl encodedLink
  end.

(** Init preview (lines 103-133). *)
Definition init (i : Inputs) : M unit :=
  modify (set_scannedLinks []) ;;
  modify (set_previews []) ;;
  checkInputParameters i ;;
  (if truthy (parseForLinksStr i) then
     found <- lift (parseStringForLinks (parseForLinksStr i)) ;;
     modify (fun s => set_scannedLinks (scannedLinks s ++ found) s)
   else ret tt) ;;
  (match links i with
   | Some (l :: ls) =>
       modify (fun s => set_scannedLinks (scannedLinks s ++ l :: ls) s)
   | _ => ret tt
   end) ;;
  scanned <- gets scannedLinks ;;
  for_of scanned (preview_link i).

(** Every recognised change of an input refreshes the preview
    (lines 96-98). *)
Definition ngOnChanges (i : Inputs) : M unit := init i.

(** Get sanitized image url (lines 182-192).  Reading [startsWith] of an
    absent image raises; when no branch applies the function returns
    [undefined], here [None]. *)
Definition getSanitizedImageUrl (p : OpenGraphMetaData)
  : outcome (option jsstring) :=
  match og_image p with
  | None => Throw TypeError
  | Some image =>
      if startsWith image (js "http") then Ret (Some image)
      else if startsWith image (js "www") then Ret (Some image)
      else if startsWith image (js "//www") then
        Ret (Some (js "https://" ++ drop 2 image))
      else if startsWith image (js "/yts/") then
        Ret (Some (js "https://" ++ to_string (source p) ++ image))
      else Ret None
  end.

(** ** Events of a component instance

    Between two runs of [init] the observables subscribed so far may emit:
    [Emit k resp] runs the callback subscribed for the key [k].  A trace
    is that of one component instance. *)
Inductive event :=
| Trigger (i : Inputs)
| Emit (encodedLink : jsstring) (resp : OpenGraphMetaData).

Inductive step : State -> event -> State -> Prop :=
| step_trigger s i :
    step s (Trigger i) (exec (ngOnChanges i) s)
| step_emit s k resp :
    k ∈ subscriptions s ->
    step s (Emit k resp) (exec (emit k resp) s).

Inductive steps : State -> list event -> State -> Prop :=
| steps_nil s : steps s [] s
| steps_cons s e s' es s'' :
    step s e s' -> steps s' es s'' -> steps s (e :: es) s''.

(** The latest value recorded for a key. *)
Fixpoint latest (k : jsstring) (log : list (jsstring * OpenGraphMetaData))
  : option OpenGraphMetaData :=
  match log with
  | [] => None
  | (k', resp) :: log' =>
      match latest k log' with
      | Some r => Some r
      | None => if decide (k' = k) then Some resp else None
      end
  end.

(** A component as it is created: its own fields have their initial
    values and its loading manager is new (lines 70-75), while the cache
    service is injected (lines 80-83) and shared with the other components,
    so that it may already hold entries. *)
Definition initial (cache : gmap jsstring OpenGraphMetaData) : State :=
  {| scannedLinks := []; previews := []; cacheSvc := cache; loadingMgr := ∅;
     requests := []; subscriptions := []; completed := [] |}.

(** Sample data. *)
Definition sample_meta : OpenGraphMetaData :=
  {| title := Some (js "Example"); description := None; siteName := None;
     og_image := None; url := Some (js "https://example.com");
     source := None |}.

Definition sample_inputs : Inputs :=
  {| links := Some [js "https://example.com"]; parseForLinksStr := None;
     getApiEndpoint := Some (fun _ => []);
     apiRoute := Some (js "api.example.com/meta");
     queryParamName := js "url"; useCache := true |}.

Definition with_links (ls : list jsstring) (i : Inputs) : Inputs :=
  {| links := Some ls; parseForLinksStr := parseForLinksStr i;
     getApiEndpoint := getApiEndpoint i; apiRoute := apiRoute i;
     queryParamName := queryParamName i; useCache := useCache i |}.

Definition with_text (text : jsstring) (i : Inputs) : Inputs :=
  {| links := links i; parseForLinksStr := Some text;
     getApiEndpoint := getApiEndpoint i; apiRoute := apiRoute i;
     queryParamName := queryParamName i; useCache := useCache i |}.

Definition without_apiRoute (i : Inputs) : Inputs :=
  {| links := links i; parseForLinksStr := parseForLinksStr i;
     getApiEndpoint := getApiEndpoint i; apiRoute := None;
     queryParamName := queryParamName i; useCache := useCache i |}.

(** ** Notions used to state the properties *)

(** What the regular expression [r] denotes: [r] matches the word [w] when
    [prev] is the code unit before [w] and [rest] is the input after it. *)
Fixpoint Matches (r : regex) (prev : option N) (w rest : jsstring) : Prop :=
  match r with
  | Lit l => Forall2 (fun c d => ci_eq c d = true) l w
  | Class cls lo hi =>
      Forall (fun d => ci_class cls d = true) w
      /\ (lo <= length w)%nat
      /\ match hi with Some h => (length w <= h)%nat | None => True end
  | Opt r1 => w = [] \/ Matches r1 prev w rest
  | Cat r1 r2 =>
      exists w1 w2, w = w1 ++ w2
        /\ Matches r1 prev w1 (w2 ++ rest)
        /\ Matches r2 (last_or prev w1) w2 rest
  | WordBoundary =>
      w = [] /\ is_word_char prev <> is_word_char (head rest)
  end.

(** The text has a substring that matches the pattern. *)
Definition has_match (re : regex) (text : jsstring) : Prop :=
  exists before w after,
    text = before ++ w ++ after /\ Matches re (last_or None before) w after.

(** [ms] are matches of [re] found in the text one after the other, from
    left to right and without overlap. *)
Inductive matches_in_order (re : regex)
  : option N -> jsstring -> list jsstring -> Prop :=
| mio_nil prev s : matches_in_order re prev s []
| mio_cons prev gap w rest ms :
    Matches re (last_or prev gap) w rest ->
    matches_in_order re (last_or prev (gap ++ w)) rest ms ->
    matches_in_order re prev (gap ++ w ++ rest) (w :: ms).

(** The link extractor as the orchestrator uses it: an absent or empty text
    gives no link. *)
Definition extracted (text : option jsstring) : list jsstring :=
  match text with
  | Some (c :: t) =>
      match parseStringForLinks (Some (c :: t)) with
      | Ret found => found
      | Throw _ => []
      end
  | _ => []
  end.

(** The explicit links; an absent list gives no link. *)
Definition explicit (ls : option (list jsstring)) : list jsstring :=
  default [] ls.

(** The configuration passes [checkInputParameters]. *)
Definition configured (i : Inputs) : Prop :=
  truthy (apiRoute i) = true /\ is_Some (getApiEndpoint i).

(** Decoding a key as the receiving side does: URI-unescape, then
    base64-decode. *)
Definition decodeKey (key : jsstring) : outcome jsstring :=
  obind (decodeURI key) atob.

(** Characters allowed in the query component of a URI (RFC 3986:
    unreserved, sub-delims, [:], [@], [/], [?]; percent signs only in
    escapes, which do not occur in the statements below). *)
Definition uri_query_char (c : N) : bool :=
  is_alnum c || one_of "-._~" c || one_of "!$&'()*+,;=" c || one_of ":@/?" c.

(** The characters of a base64 text. *)
Definition is_key_char (c : N) : bool := is_b64_char c || (c =? pad).

(** What holds of every character of a base64 text: it is no white space,
    [encodeURI] leaves it as it is, it is no percent sign, and it may occur
    in a URI query. *)
Definition key_char_facts (c : N) : bool :=
  negb (is_ascii_whitespace c)
  && (uri_always_unescaped c || uri_reserved_hash c)
  && negb (c =? 37)
  && uri_query_char c.

(** The candidate links of a run: the links found in the text, then the
    explicit links. *)
Definition candidates (i : Inputs) : list jsstring :=
  extracted (parseForLinksStr i) ++ explicit (links i).


(** The sextets of the base64 text of [l], before they are written as
    characters and padded. *)
Fixpoint b64_sextets (l : list N) : list N :=
  match l with
  | [] => []
  | [a] => [a / 4; (a mod 4) * 16]
  | [a; b] => [a / 4; (a mod 4) * 16 + b / 16; (b mod 16) * 4]
  | a :: b :: c :: r =>
      a / 4 :: (a mod 4) * 16 + b / 16 :: (b mod 16) * 4 + c / 64
      :: c mod 64 :: b64_sextets r
  end.

(** ** Further notions used to state properties of the code *)

Definition to_lower (c : N) : N := if is_upper c then c + 32 else c.

(** The text starts with [http://] or [https://], in any letter case. *)
Definition has_http_scheme (w : jsstring) : bool :=
  startsWith (map to_lower w) (js "http://")
  || startsWith (map to_lower w) (js "https://").

(** How a run ends, read off the inputs alone. *)
Definition run_outcome (i : Inputs) : outcome unit :=
  if negb (truthy (apiRoute i)) then
    Throw (Error_ (js "<ngx-link-preview></ngx-link-preview> Missing [apiRoute] input parameter"))
  else if negb (bool_decide (is_Some (getApiEndpoint i))) then
    Throw (Error_ (js "<ngx-link-preview></ngx-link-preview> Missing [getApiEndpoint$] input parameter"))
  else if forallb latin1 (explicit (links i)) then Ret tt
  else Throw InvalidCharacterError.

(** The request function is asynchronous: no observable it returns emits
    while it is being subscribed. *)
Definition asynchronous (i : Inputs) : Prop :=
  forall f u, getApiEndpoint i = Some f -> f u = [].

(** The record a link is served from the cache with, if any. *)
Definition cached_record (i : Inputs) (s : State) (l : jsstring)
  : option OpenGraphMetaData :=
  if useCache i then cacheSvc s !! b64_encode l else None.

(** The records shown at once for the links [ls], and the keys fetched for
    them, in the order of the links. *)
Definition shown (i : Inputs) (s : State) (ls : list jsstring)
  : list OpenGraphMetaData :=
  flat_map (fun l => match cached_record i s l with
                     | Some p => [p]
                     | None => []
                     end) ls.

Definition fetched (i : Inputs) (s : State) (ls : list jsstring)
  : list jsstring :=
  flat_map (fun l => match cached_record i s l with
                     | Some _ => []
                     | None => [b64_encode l]
                     end) ls.

(** The part of a request URL before the encoded link. *)
Definition request_prefix (i : Inputs) : jsstring :=
  to_string (apiRoute i) ++ js "?" ++ queryParamName i ++ js "=".

Definition without_cache (i : Inputs) : Inputs :=
  {| links := links i; parseForLinksStr := parseForLinksStr i;
     getApiEndpoint := getApiEndpoint i; apiRoute := apiRoute i;
     queryParamName := queryParamName i; useCache := false |}.

(** The links a run gets to: those before the first link that cannot be
    encoded, all of them when every link can. *)
Fixpoint reached (ls : list jsstring) : list jsstring :=
  match ls with
  | [] => []
  | l :: ls' => if latin1 l then l :: reached ls' else []
  end.

(** A cache that holds a record for [http://a.b]. *)
Definition sample_cache : gmap jsstring OpenGraphMetaData :=
  {[ js "aHR0cDovL2EuYg==" := sample_meta ]}.

Definition other_meta : OpenGraphMetaData :=
  {| title := Some (js "Other"); description := None; siteName := None;
     og_image := None; url := None; source := None |}.

(** * Examples *)

Example btoa_example :
  btoa (js "www.example.com") = Ret (js "d3d3LmV4YW1wbGUuY29t").
Proof. reflexivity. Qed.

Example atob_example :
  atob (js "aHR0cHM6Ly9hLmI=") = Ret (js "https://a.b").
Proof. reflexivity. Qed.

Example b64_table :
  map b64_char (map N.of_nat (seq 0 64)) =
  js "ABCDEFGHIJKLMNOPQRSTUVWXYZabcdefghijklmnopqrstuvwxyz0123456789+/".
Proof. reflexivity. Qed.

Example encodeURI_example :
  encodeURI (js "a b/") = Ret (js "a%20b/")
  /\ encodeURI [233; 8364] = Ret (js "%C3%A9%E2%82%AC")
  /\ encodeURI [55357; 56832] = Ret (js "%F0%9F%98%80")
  /\ encodeURI [55357] = Throw URIError.
Proof. repeat split. Qed.

Example decodeURI_example :
  decodeURI (js "a%20b%2F%C3%A9%E2%82%AC%F0%9F%98%80")
    = Ret (js "a b%2F" ++ [233; 8364; 55357; 56832])
  /\ decodeURIComponent (js "a%20b%2F") = Ret (js "a b/")
  /\ decodeURI (js "%C0%80") = Throw URIError
  /\ decodeURI (js "100%") = Throw URIError.
Proof. repeat split. Qed.

Example encodeUrlSafe_example :
  encodeUrlSafe (js "www.example.com") = Ret (js "d3d3LmV4YW1wbGUuY29t")
  /\ encodeUrlSafe (js "https://a.b/?>") = Ret (js "aHR0cHM6Ly9hLmIvPz4=")
  /\ encodeUrlSafe (js "http://x" ++ [8364]) = Throw InvalidCharacterError.
Proof. repeat split. Qed.

Example parse_example :
  parseStringForLinks
    (Some (js "check out https://a.example.com/x and http://b.org"))
  = Ret [js "https://a.example.com/x"; js "http://b.org"].
Proof. vm_compute. reflexivity. Qed.

Example parse_backtracks :
  parseStringForLinks (Some (js "see HTTP://WWW.Foo.Bar.com, ok http://x.(a)!"))
  = Ret [js "HTTP://WWW.Foo.Bar.com"; js "http://x.(a)"].
Proof. vm_compute. reflexivity. Qed.

(** The token after the last dot has at most six characters and must end
    at a word boundary. *)
Example parse_nothing :
  parseStringForLinks (Some (js "no links: http:// or www.example.com")) = Ret []
  /\ parseStringForLinks (Some (js "http://b.example")) = Ret []
  /\ parseStringForLinks (Some []) = Ret []
  /\ parseStringForLinks None = Throw TypeError.
Proof. vm_compute. repeat split. Qed.

(** * Properties *)

Ltac lia_div := zify; Z.to_euclidean_division_equations; lia.

(** ** Checking a property of all small code units by computation *)

Lemma forall_below (P : N -> bool) (n : nat) :
  forallb P (map N.of_nat (seq 0 n)) = true ->
  forall c, c < N.of_nat n -> P c = true.
Proof.
  intros H c Hc.
  rewrite forallb_forall in H. apply H.
  apply in_map_iff. exists (N.to_nat c). split; [lia|].
  apply in_seq. lia.
Qed.

(** ** base64 *)

Lemma list_ind3 {A} (P : list A -> Prop) :
  P [] -> (forall a, P [a]) -> (forall a b, P [a; b]) ->
  (forall a b c r, P r -> P (a :: b :: c :: r)) ->
  forall l, P l.
Proof.
  intros H0 H1 H2 H3.
  fix IH 1. intros [|a [|b [|c r]]].
  - exact H0.
  - apply H1.
  - apply H2.
  - apply H3, IH.
Qed.

Lemma b64_index_char i : i < 64 -> b64_index (b64_char i) = Some i.
Proof.
  intros Hi.
  apply (forall_below (fun i => bool_decide (b64_index (b64_char i) = Some i)) 64)
    in Hi; [|vm_compute; reflexivity].
  by apply bool_decide_eq_true in Hi.
Qed.

Lemma b64_char_key i : i < 64 -> is_b64_char (b64_char i) = true.
Proof. intros Hi. unfold is_b64_char. by rewrite b64_index_char. Qed.

Lemma b64_char_not_pad i : i < 64 -> (b64_char i =? pad) = false.
Proof.
  intros Hi.
  by apply (forall_below (fun i => negb (b64_char i =? pad)) 64), negb_true_iff
    in Hi; [|vm_compute].
Qed.

Lemma latin1_Forall s : latin1 s = true <-> Forall (fun c => c < 256) s.
Proof.
  unfold latin1. rewrite forallb_forall, List.Forall_forall.
  split; intros H c Hc.
  - apply H, N.leb_le in Hc. lia.
  - apply N.leb_le. apply H in Hc. lia.
Qed.

Ltac inv_Forall :=
  repeat match goal with
         | H : Forall _ (_ :: _) |- _ =>
             let H1 := fresh H in
             apply Forall_cons in H; destruct H as [H1 H]
         end.

Lemma b64_sextets_bound l :
  Forall (fun c => c < 256) l -> Forall (fun i => i < 64) (b64_sextets l).
Proof.
  induction l as [|a|a b|a b c r IH] using list_ind3; intros H;
    inv_Forall; simpl; repeat constructor;
    try lia_div; auto.
Qed.

Lemma drop_padding_cons a l :
  (a =? pad) = false -> drop_padding (a :: l) = a :: drop_padding l.
Proof.
  intros Ha. destruct l as [|b [|c l']]; simpl; rewrite ?Ha; try done.
  by destruct (b =? pad).
Qed.

Lemma b64_encode_unpadded l :
  Forall (fun c => c < 256) l ->
  drop_padding (b64_encode l) = map b64_char (b64_sextets l).
Proof.
  induction l as [|a|a b|a b c r IH] using list_ind3; intros H;
    inv_Forall; cbn [b64_encode b64_sextets map]; [done|..].
  all: rewrite !drop_padding_cons by (apply b64_char_not_pad; lia_div).
  all: try reflexivity.
  by rewrite IH.
Qed.

Lemma b64_encode_length l :
  exists k, length (b64_encode l) = (4 * k)%nat.
Proof.
  induction l as [|a|a b|a b c r [k IH]] using list_ind3.
  - by exists 0%nat.
  - by exists 1%nat.
  - by exists 1%nat.
  - exists (S k). simpl. lia.
Qed.

Lemma b64_sextets_length l :
  (length (b64_sextets l) mod 4 <> 1)%nat.
Proof.
  assert (exists k, (length (b64_sextets l) = 4 * k
                     \/ length (b64_sextets l) = 4 * k + 2
                     \/ length (b64_sextets l) = 4 * k + 3)%nat) as [k Hk].
  { induction l as [|a|a b|a b c r [k IH]] using list_ind3.
    - exists 0%nat. auto.
    - exists 0%nat. auto.
    - exists 0%nat. auto.
    - exists (S k). simpl. lia. }
  lia_div.
Qed.

Lemma b64_indices_chars sx :
  Forall (fun i => i < 64) sx -> b64_indices (map b64_char sx) = Some sx.
Proof.
  induction 1 as [|i sx Hi _ IH]; [done|].
  simpl. by rewrite b64_index_char, IH.
Qed.

Lemma b64_decode_sextets l :
  Forall (fun c => c < 256) l -> b64_decode (b64_sextets l) = l.
Proof.
  induction l as [|a|a b|a b c r IH] using list_ind3; intros H;
    inv_Forall; cbn [b64_sextets b64_decode]; [done|..].
  all: repeat f_equal; auto; lia_div.
Qed.

Lemma key_char_small c : is_key_char c = true -> c < 128.
Proof.
  unfold is_key_char, is_b64_char, b64_index, is_upper, is_lower, is_digit,
    in_range, pad.
  repeat case_match; simplify_eq; lia.
Qed.

Lemma key_char_props c : is_key_char c = true -> key_char_facts c = true.
Proof.
  intros H. pose proof (key_char_small c H) as Hc.
  apply (forall_below (fun c => implb (is_key_char c) (key_char_facts c)) 128)
    in Hc; [|vm_compute; reflexivity].
  by rewrite H in Hc.
Qed.

Lemma b64_encode_chars l :
  Forall (fun c => c < 256) l ->
  Forall (fun c => is_key_char c = true) (b64_encode l).
Proof.
  assert (Hc : forall i, i < 64 -> is_key_char (b64_char i) = true).
  { intros i Hi. unfold is_key_char. by rewrite b64_char_key. }
  induction l as [|a|a b|a b c r IH] using list_ind3; intros H;
    inv_Forall; cbn [b64_encode]; repeat apply Forall_cons_2;
    try apply Forall_nil_2; try (apply Hc; lia_div); auto.
Qed.

Lemma filter_all {A} (P : A -> Prop) `{forall x, Decision (P x)} (l : list A) :
  Forall P l -> filter P l = l.
Proof.
  induction 1 as [|x l Hx _ IH]; [done|].
  by rewrite filter_cons_True, IH.
Qed.

Lemma atob_b64_encode l :
  Forall (fun c => c < 256) l -> atob (b64_encode l) = Ret l.
Proof.
  intros Hl. unfold atob.
  rewrite filter_all.
  2:{ eapply Forall_impl; [by apply b64_encode_chars|].
      intros c Hc%key_char_props. unfold key_char_facts in Hc.
      by destruct (is_ascii_whitespace c). }
  destruct (b64_encode_length l) as [k Hk].
  replace (N.of_nat (length (b64_encode l)) mod 4 =? 0) with true by lia_div.
  rewrite b64_encode_unpadded by done.
  rewrite length_map.
  pose proof (b64_sextets_length l).
  replace (N.of_nat (length (b64_sextets l)) mod 4 =? 1) with false by lia_div.
  rewrite b64_indices_chars by by apply b64_sextets_bound.
  by rewrite b64_decode_sextets.
Qed.

(** ** URI escaping of texts that need none *)

Lemma uri_encode_unescaped unescaped s :
  Forall (fun c => unescaped c = true) s -> uri_encode unescaped s = Ret s.
Proof.
  induction 1 as [|c s Hc _ IH]; [done|].
  simpl. by rewrite Hc, IH.
Qed.

Lemma uri_decode_plain preserve s :
  Forall (fun c => (c =? 37) = false) s -> uri_decode preserve s = Ret s.
Proof.
  intros H. unfold uri_decode.
  assert (uri_tokens s = Some (map Plain s)) as ->.
  { induction H as [|c s Hc _ IH]; [done|]. simpl. by rewrite Hc, IH. }
  assert (uri_join preserve (map Plain s) = Some s) as ->; [|done].
  clear H. induction s as [|c s IH]; [done|]. simpl. by rewrite IH.
Qed.

Lemma encodeUrlSafe_latin1 u :
  latin1 u = true -> encodeUrlSafe u = Ret (b64_encode u).
Proof.
  intros Hu. unfold encodeUrlSafe, btoa. rewrite Hu. simpl.
  apply uri_encode_unescaped.
  eapply Forall_impl; [by apply b64_encode_chars, latin1_Forall|].
  intros c Hc%key_char_props. unfold key_char_facts in Hc.
  by repeat (apply andb_true_iff in Hc as [Hc ?]).
Qed.

Lemma encodeUrlSafe_not_latin1 u :
  latin1 u = false -> encodeUrlSafe u = Throw InvalidCharacterError.
Proof. intros Hu. unfold encodeUrlSafe, btoa. by rewrite Hu. Qed.

(** C5. Round trip of the safe key encoder: for every URL [u] that [btoa]
    accepts (all code units at most U+00FF), [encodeUrlSafe u] returns a key,
    and URI-unescaping that key ([decodeURI], or [decodeURIComponent]) and
    then base64-decoding it ([atob]) gives back [u] exactly. *)
Theorem C5_key_round_trip (u : jsstring) :
  latin1 u = true ->
  exists key,
    encodeUrlSafe u = Ret key
    /\ decodeKey key = Ret u
    /\ obind (decodeURIComponent key) atob = Ret u.
Proof.
  intros Hu. exists (b64_encode u).
  split; [by apply encodeUrlSafe_latin1|].
  assert (Hplain : Forall (fun c => (c =? 37) = false) (b64_encode u)).
  { eapply Forall_impl; [by apply b64_encode_chars, latin1_Forall|].
    intros c Hc%key_char_props. unfold key_char_facts in Hc.
    repeat (apply andb_true_iff in Hc as [Hc ?]).
    by destruct (c =? 37). }
  unfold decodeKey, decodeURI, decodeURIComponent.
  rewrite !uri_decode_plain by done. simpl.
  split; by apply atob_b64_encode, latin1_Forall.
Qed.

Lemma C5_key_round_trip_witness :
  latin1 (js "https://example.com/?q=1&r=~") = true
  /\ exists key,
       encodeUrlSafe (js "https://example.com/?q=1&r=~") = Ret key
       /\ decodeKey key = Ret (js "https://example.com/?q=1&r=~")
       /\ obind (decodeURIComponent key) atob
          = Ret (js "https://example.com/?q=1&r=~").
Proof.
  split; [reflexivity|].
  apply (C5_key_round_trip (js "https://example.com/?q=1&r=~")).
  reflexivity.
Defined.

(** C8. For every valid URL [u] (every code unit at most U+00FF),
    [encodeUrlSafe u] returns a key, any two applications to [u] return the
    same key, and every character of the key is a base64 character
    ([A-Za-z0-9+/=], a printable character that any string-keyed cache
    accepts) and a character allowed in the query of a URI. *)
Theorem C8_key_deterministic_and_safe (u : jsstring) :
  latin1 u = true ->
  exists key,
    encodeUrlSafe u = Ret key
    /\ (forall key1 key2,
          encodeUrlSafe u = Ret key1 -> encodeUrlSafe u = Ret key2 ->
          key1 = key2)
    /\ Forall (fun c => is_key_char c = true /\ uri_query_char c = true) key.
Proof.
  intros Hu. exists (b64_encode u).
  split; [by apply encodeUrlSafe_latin1|].
  split; [congruence|].
  eapply Forall_impl; [by apply b64_encode_chars, latin1_Forall|].
  intros c Hc. split; [done|].
  apply key_char_props in Hc. unfold key_char_facts in Hc.
  by repeat (apply andb_true_iff in Hc as [Hc ?]).
Qed.

Lemma C8_key_deterministic_and_safe_witness :
  latin1 (js "http://www.example.org/a?b=c") = true
  /\ exists key,
       encodeUrlSafe (js "http://www.example.org/a?b=c") = Ret key
       /\ (forall key1 key2,
             encodeUrlSafe (js "http://www.example.org/a?b=c") = Ret key1 ->
             encodeUrlSafe (js "http://www.example.org/a?b=c") = Ret key2 ->
             key1 = key2)
       /\ Forall (fun c => is_key_char c = true /\ uri_query_char c = true) key.
Proof.
  split; [reflexivity|].
  apply (C8_key_deterministic_and_safe (js "http://www.example.org/a?b=c")).
  reflexivity.
Defined.

(** ** The image URL repair *)

Lemma startsWith_app s p : startsWith s p = true <-> exists r, s = p ++ r.
Proof.
  revert s. induction p as [|c p IH]; intros s.
  - split; [by exists s|by destruct s].
  - destruct s as [|d s]; simpl; [split; [done|by intros [r Hr]]|].
    rewrite andb_true_iff, N.eqb_eq, IH. split.
    + intros [-> [r ->]]. by exists r.
    + intros [r [= -> ->]]. eauto.
Qed.

(** C9. For every metadata record [p] with an image field: if the image
    starts with [http] or with [www] the result is the image unchanged; if
    it starts with [//www] the result is [https://] followed by the image
    without its first two characters; if it starts with [/yts/] the result
    is ['https://' + p.source + image]; in every other case the function
    returns no value ([undefined]). *)
Theorem C9_image_url_repair (p : OpenGraphMetaData) (image : jsstring) :
  og_image p = Some image ->
  (startsWith image (js "http") = true \/ startsWith image (js "www") = true ->
   getSanitizedImageUrl p = Ret (Some image))
  /\ (startsWith image (js "//www") = true ->
      getSanitizedImageUrl p = Ret (Some (js "https://" ++ drop 2 image)))
  /\ (startsWith image (js "/yts/") = true ->
      getSanitizedImageUrl p
      = Ret (Some (js "https://" ++ to_string (source p) ++ image)))
  /\ (startsWith image (js "http") = false ->
      startsWith image (js "www") = false ->
      startsWith image (js "//www") = false ->
      startsWith image (js "/yts/") = false ->
      getSanitizedImageUrl p = Ret None).
Proof.
  intros Himg. unfold getSanitizedImageUrl. rewrite Himg.
  repeat split.
  - intros [H|H]; rewrite H; [done|]. by destruct (startsWith image (js "http")).
  - intros [r ->]%startsWith_app. reflexivity.
  - intros [r ->]%startsWith_app. reflexivity.
  - by intros -> -> -> ->.
Qed.

Lemma C9_image_url_repair_witness :
  let p := {| title := None; description := None; siteName := None;
              og_image := Some (js "/yts/img/favicon.png"); url := None;
              source := Some (js "youtube.com") |} in
  og_image p = Some (js "/yts/img/favicon.png")
  /\ getSanitizedImageUrl p
     = Ret (Some (js "https://youtube.com/yts/img/favicon.png")).
Proof.
  intros p. split; [reflexivity|].
  apply (C9_image_url_repair p (js "/yts/img/favicon.png") eq_refl).
  reflexivity.
Defined.

(** ** The orchestrator *)

Arguments parseStringForLinks : simpl never.
Arguments encodeUrlSafe : simpl never.

Lemma parseStringForLinks_Some m :
  exists found, parseStringForLinks (Some m) = Ret found.
Proof. unfold parseStringForLinks. destruct (js_match url_regex m); eauto. Qed.

Lemma for_of_app {A} (l1 l2 : list A) body s :
  for_of (l1 ++ l2) body s =
  match for_of l1 body s with
  | (s', Ret _) => for_of l2 body s'
  | (s', Throw e) => (s', Throw e)
  end.
Proof.
  revert s. induction l1 as [|x l1 IH]; intros s; simpl; [done|].
  unfold bind. destruct (body x s) as [s' [[]|e]]; [apply IH|done].
Qed.

(** A run with a valid configuration resets the two lists, collects the
    candidate links and previews them one after the other. *)
Lemma init_configured i s :
  configured i ->
  init i s =
  for_of (candidates i) (preview_link i)
         (set_scannedLinks (candidates i) (set_previews [] s)).
Proof.
  intros [Hroute Hfetch].
  unfold init, checkInputParameters, candidates, extracted, explicit.
  unfold bind at 1 2 3. simpl. rewrite Hroute, bool_decide_true by done. simpl.
  unfold bind, modify, gets, lift, ret.
  destruct (parseForLinksStr i) as [[|c t]|]; simpl.
  - by destruct (links i) as [[|l ls]|].
  - destruct (parseStringForLinks_Some (c :: t)) as [found ->].
    destruct (links i) as [[|l ls]|]; simpl; by rewrite ?app_nil_r.
  - by destruct (links i) as [[|l ls]|].
Qed.

(** A run with an invalid configuration stops after resetting the lists. *)
Lemma init_not_configured i s :
  truthy (apiRoute i) = false \/ getApiEndpoint i = None ->
  exists msg,
    init i s = (set_previews [] (set_scannedLinks [] s), Throw (Error_ msg)).
Proof.
  intros H. unfold init, checkInputParameters.
  unfold bind at 1 2 3. simpl.
  destruct (truthy (apiRoute i)); simpl; [|eauto].
  destruct H as [|H]; [done|]. rewrite H, bool_decide_false; simpl; [eauto|].
  by intros [].
Qed.

Lemma State_eq s1 s2 :
  scannedLinks s1 = scannedLinks s2 -> previews s1 = previews s2 ->
  cacheSvc s1 = cacheSvc s2 -> loadingMgr s1 = loadingMgr s2 ->
  requests s1 = requests s2 -> subscriptions s1 = subscriptions s2 ->
  completed s1 = completed s2 ->
  s1 = s2.
Proof. destruct s1, s2; simpl; congruence. Qed.

(** The values an observable emits while it is subscribed: each one is
    cached, shown and recorded; the key is no longer pending. *)
Lemma for_of_emit k rs s :
  for_of rs (emit k) s =
  (match rs with
   | [] => s
   | _ =>
       set_completed (completed s ++ map (pair k) rs)
         (set_previews (previews s ++ rs)
            (set_loadingMgr (loadingMgr s ∖ {[k]})
               (set_cacheSvc (foldl (fun m r => <[k := r]> m) (cacheSvc s) rs)
                  s)))
   end, Ret tt).
Proof.
  revert s. induction rs as [|r rs IH]; intros s; [done|].
  simpl. unfold bind at 1. simpl. rewrite IH.
  destruct rs as [|r' rs]; [done|]. simpl.
  f_equal. apply State_eq; simpl; try done.
  - by rewrite <- app_assoc.
  - by rewrite difference_twice_L.
  - by rewrite <- app_assoc.
Qed.

Lemma preview_link_throw i l s e :
  encodeUrlSafe l = Throw e -> preview_link i l s = (s, Throw e).
Proof. intros H. unfold preview_link, bind, lift. by rewrite H. Qed.

Lemma preview_link_hit i l s k p :
  encodeUrlSafe l = Ret k -> useCache i = true -> cacheSvc s !! k = Some p ->
  preview_link i l s = (set_previews (previews s ++ [p]) s, Ret tt).
Proof.
  intros Hk Hc Hp. unfold preview_link, bind, lift. rewrite Hk, Hc.
  unfold getCacheItem, gets. by rewrite Hp.
Qed.

Lemma preview_link_miss i l s k f :
  encodeUrlSafe l = Ret k -> getApiEndpoint i = Some f ->
  useCache i = false \/ cacheSvc s !! k = None ->
  preview_link i l s =
  for_of (f (requestUrl_of i k)) (emit k)
    (set_subscriptions (subscriptions s ++ [k])
       (set_requests (requests s ++ [requestUrl_of i k])
          (set_loadingMgr ({[k]} ∪ loadingMgr s) s))).
Proof.
  intros Hk Hf Hmiss. unfold preview_link, bind at 1 2, lift. rewrite Hk.
  assert ((if useCache i then getCacheItem k else ret None) s = (s, Ret None))
    as ->.
  { destruct Hmiss as [->| Hn]; [done|].
    destruct (useCache i); [|done]. unfold getCacheItem, gets. by rewrite Hn. }
  unfold request. rewrite Hf. reflexivity.
Qed.

(** ** What a run leaves unchanged *)

Section Preserved.
Variable P : State -> Prop.
Hypothesis P_previews : forall s v, P s -> P (set_previews v s).
Hypothesis P_loadingMgr : forall s v, P s -> P (set_loadingMgr v s).
Hypothesis P_requests :
  forall s r, P s -> P (set_requests (requests s ++ [r]) s).
Hypothesis P_subscriptions :
  forall s k, P s -> P (set_subscriptions (subscriptions s ++ [k]) s).
Hypothesis P_emit : forall s k r, P s -> P (exec (emit k r) s).

Lemma for_of_preserves {A} (body : A -> M unit) l s :
  (forall x s, P s -> P (exec (body x) s)) ->
  P s -> P (exec (for_of l body) s).
Proof.
  intros Hbody. revert s. induction l as [|x l IH]; intros s Hs; [done|].
  unfold exec in *. simpl. unfold bind.
  specialize (Hbody x s Hs).
  destruct (body x s) as [s' [[]|e]]; simpl in *; auto.
Qed.

Lemma preview_link_preserves i l s :
  P s -> P (exec (preview_link i l) s).
Proof.
  intros Hs. unfold exec, preview_link, bind at 1, lift.
  destruct (encodeUrlSafe l) as [k|e]; [|done].
  unfold bind at 1.
  assert (Hmiss :
    P (fst (bind (addTask k)
                 (fun _ => request i (requestUrl_of i k) k) s))).
  { unfold bind, addTask, modify, request.
    destruct (getApiEndpoint i) as [f|]; simpl; [|auto].
    apply (for_of_preserves (emit k)); auto. }
  destruct (useCache i); [|done].
  unfold getCacheItem, gets. destruct (cacheSvc s !! k); [|done].
  simpl. auto.
Qed.

Lemma init_cases i s :
  (configured i
   /\ init i s = for_of (candidates i) (preview_link i)
                       (set_scannedLinks (candidates i) (set_previews [] s)))
  \/ (exists msg,
        init i s
        = (set_previews [] (set_scannedLinks [] s), Throw (Error_ msg))).
Proof.
  destruct (truthy (apiRoute i)) eqn:Hroute;
    [destruct (getApiEndpoint i) as [f|] eqn:Hf|].
  - left. assert (configured i) by (split; [done|by rewrite Hf]).
    split; [done|]. by apply init_configured.
  - right. apply init_not_configured. auto.
  - right. apply init_not_configured. auto.
Qed.

End Preserved.

(** The loop over the candidate links does not change the candidates. *)
Lemma init_scannedLinks i s :
  configured i -> scannedLinks (exec (ngOnChanges i) s) = candidates i.
Proof.
  intros Hconf. unfold exec, ngOnChanges. rewrite init_configured by done.
  apply (for_of_preserves (fun s => scannedLinks s = candidates i)); try done.
  intros l s'. by apply preview_link_preserves.
Qed.

Lemma foldl_insert_ne (k k' : jsstring) (rs : list OpenGraphMetaData)
      (m : gmap jsstring OpenGraphMetaData) :
  k' <> k -> foldl (fun m r => <[k := r]> m) m rs !! k' = m !! k'.
Proof.
  intros Hne. revert m. induction rs as [|r rs IH]; intros m; simpl; [done|].
  by rewrite IH, lookup_insert_ne.
Qed.

(** What previewing one link does, for a link that can be encoded. *)
Lemma preview_link_effect i l s k f :
  encodeUrlSafe l = Ret k -> getApiEndpoint i = Some f ->
  exists s',
    preview_link i l s = (s', Ret tt)
    /\ ((useCache i = true /\ is_Some (cacheSvc s !! k)
         /\ requests s' = requests s /\ cacheSvc s' = cacheSvc s)
        \/ ((useCache i = false \/ cacheSvc s !! k = None)
            /\ requests s' = requests s ++ [requestUrl_of i k]
            /\ forall k', k' <> k -> cacheSvc s' !! k' = cacheSvc s !! k')).
Proof.
  intros Hk Hf.
  assert (Hmiss : useCache i = false \/ cacheSvc s !! k = None ->
    exists s', preview_link i l s = (s', Ret tt)
      /\ requests s' = requests s ++ [requestUrl_of i k]
      /\ forall k', k' <> k -> cacheSvc s' !! k' = cacheSvc s !! k').
  { intros Hm. rewrite (preview_link_miss i l s k f) by auto.
    rewrite for_of_emit.
    eexists. split; [done|].
    destruct (f (requestUrl_of i k)) as [|r rs]; simpl; [done|].
    split; [done|]. intros k' Hne.
    by rewrite foldl_insert_ne, lookup_insert_ne. }
  destruct (useCache i) eqn:Hc; [destruct (cacheSvc s !! k) as [p|] eqn:Hp|].
  - exists (set_previews (previews s ++ [p]) s).
    split; [by apply (preview_link_hit i l s k p)|]. left. eauto.
  - destruct Hmiss as (s' & ? & ? & ?); eauto 10.
  - destruct Hmiss as (s' & ? & ? & ?); eauto 10.
Qed.

Lemma encodeUrlSafe_Ret l k : encodeUrlSafe l = Ret k -> latin1 l = true.
Proof.
  intros H. destruct (latin1 l) eqn:Hl; [done|].
  by rewrite encodeUrlSafe_not_latin1 in H.
Qed.

(** Previewing a list of links that can all be encoded: the run returns
    normally, only adds to the calls of the request function, and has
    called it for every key that it has added to the cache. *)
Lemma for_of_dispatches i f ls :
  getApiEndpoint i = Some f -> Forall (fun l => latin1 l = true) ls ->
  forall s, exists s' new,
    for_of ls (preview_link i) s = (s', Ret tt)
    /\ requests s' = requests s ++ new
    /\ forall k, cacheSvc s !! k = None -> is_Some (cacheSvc s' !! k) ->
                 requestUrl_of i k ∈ new.
Proof.
  intros Hf Hls. induction Hls as [|l0 ls Hl0 _ IH]; intros s.
  - exists s, []. simpl. rewrite app_nil_r. do 2 (split; [done|]).
    intros k -> []. done.
  - pose proof (encodeUrlSafe_latin1 l0 Hl0) as Hk0.
    destruct (preview_link_effect i l0 s _ f Hk0 Hf) as (s1 & Hrun & Heff).
    destruct (IH s1) as (s' & new & Hrest & Hreq & Hin).
    simpl. unfold bind. rewrite Hrun.
    destruct Heff as [(_ & _ & Hr1 & Hc1)|(_ & Hr1 & Hc1)].
    + exists s', new. rewrite Hreq, Hr1. do 2 (split; [done|]).
      intros k Hnone. apply Hin. by rewrite Hc1.
    + exists s', (requestUrl_of i (b64_encode l0) :: new).
      rewrite Hreq, Hr1, <- app_assoc. do 2 (split; [done|]).
      intros k Hnone Hsome.
      destruct (decide (k = b64_encode l0)) as [->|Hne]; [left|right].
      apply Hin; [|done]. by rewrite Hc1.
Qed.

(** A run only adds to the calls of the request function. *)
Lemma for_of_requests_prefix i ls s :
  requests s `prefix_of` requests (exec (for_of ls (preview_link i)) s).
Proof.
  apply (for_of_preserves (fun s' => requests s `prefix_of` requests s'));
    [|done].
  intros l s'.
  apply (preview_link_preserves
           (fun s' => requests s `prefix_of` requests s')); try done.
  intros s0 r H. simpl. by apply prefix_app_r.
Qed.

(** C2 (as amended). For every candidate link that the run gets to (every
    candidate link before it can be encoded) and whose encoded key is
    absent from the cache, a run of the orchestrator calls the request
    function for that key, whatever the pending set holds: the state [s] is
    arbitrary, so the key may be pending and may have been requested
    before, and then the run dispatches a second, duplicate request for
    it. *)
Theorem C2_fetch_dispatched_even_if_pending
        (i : Inputs) (s : State) (before : list jsstring) (l : jsstring)
        (after : list jsstring) (k : jsstring) :
  configured i ->
  candidates i = before ++ l :: after ->
  Forall (fun l' => latin1 l' = true) before ->
  encodeUrlSafe l = Ret k ->
  cacheSvc s !! k = None ->
  (exists new,
     requests (exec (ngOnChanges i) s) = requests s ++ new
     /\ requestUrl_of i k ∈ new)
  /\ (requestUrl_of i k ∈ requests s ->
      exists r1 r2 r3,
        requests (exec (ngOnChanges i) s)
        = r1 ++ requestUrl_of i k :: r2 ++ requestUrl_of i k :: r3).
Proof.
  intros Hconf Hcand Hbefore Hk Hnone.
  assert (Hnew : exists new,
    requests (exec (ngOnChanges i) s) = requests s ++ new
    /\ requestUrl_of i k ∈ new); [|split; [done|]].
  2:{ destruct Hnew as (new & -> & (n1 & n2 & ->)%list_elem_of_split).
      intros (r1 & r2 & ->)%list_elem_of_split.
      exists r1, (r2 ++ n1), n2. by rewrite <- !app_assoc. }
  unfold exec, ngOnChanges. rewrite init_configured by done.
  destruct Hconf as [_ [f Hf]].
  set (s0 := set_scannedLinks (candidates i) (set_previews [] s)).
  rewrite Hcand, for_of_app.
  destruct (for_of_dispatches i f _ Hf Hbefore s0)
    as (s1 & new1 & -> & Hreq1 & Hin1).
  simpl in Hreq1, Hin1. simpl for_of. unfold bind.
  destruct (preview_link_effect i l s1 k f Hk Hf) as (s2 & -> & Heff).
  assert (exists new2, requests s2 = requests s ++ new2
                       /\ requestUrl_of i k ∈ new2) as (new2 & Hreq2 & Hin2).
  { destruct Heff as [(_ & Hsome & Hr & _)|(_ & Hr & _)].
    - exists new1. rewrite Hr. auto.
    - exists (new1 ++ [requestUrl_of i k]).
      rewrite Hr, Hreq1, <- app_assoc. split; [done|].
      apply elem_of_app. right. left. }
  destruct (for_of_requests_prefix i after s2) as [extra Hextra].
  unfold exec in Hextra. exists (new2 ++ extra).
  rewrite Hextra, Hreq2, <- app_assoc. split; [done|].
  apply elem_of_app. auto.
Qed.

Lemma C2_fetch_dispatched_even_if_pending_witness :
  let s := exec (ngOnChanges sample_inputs) (initial ∅) in
  let l := js "https://example.com" in
  let k := js "aHR0cHM6Ly9leGFtcGxlLmNvbQ==" in
  (configured sample_inputs
   /\ candidates sample_inputs = [] ++ l :: []
   /\ Forall (fun l' => latin1 l' = true) []
   /\ encodeUrlSafe l = Ret k
   /\ cacheSvc s !! k = None)
  /\ exists new,
       requests (exec (ngOnChanges sample_inputs) s) = requests s ++ new
       /\ requestUrl_of sample_inputs k ∈ new.
Proof.
  intros s l k.
  assert (Hconf : configured sample_inputs) by (split; [reflexivity|by eexists]).
  assert (Hcand : candidates sample_inputs = [] ++ l :: []) by reflexivity.
  assert (Hbefore : Forall (fun l' => latin1 l' = true) []) by constructor.
  assert (Hk : encodeUrlSafe l = Ret k) by reflexivity.
  assert (Hnone : cacheSvc s !! k = None) by reflexivity.
  split; [done|].
  exact (proj1 (C2_fetch_dispatched_even_if_pending
                  sample_inputs s [] l [] k Hconf Hcand Hbefore Hk Hnone)).
Defined.

(** C2 as stated fails for a candidate link that the run does not get to:
    the first link cannot be encoded, and the second link, a candidate
    whose key is not cached, is never requested. *)
Lemma C2_unreached_link_not_fetched :
  let i := with_links [js "https://ex" ++ [8364]; js "https://example.org"]
                      sample_inputs in
  let s := exec (ngOnChanges i) (initial ∅) in
  let k := js "aHR0cHM6Ly9leGFtcGxlLm9yZw==" in
  js "https://example.org" ∈ candidates i
  /\ encodeUrlSafe (js "https://example.org") = Ret k
  /\ cacheSvc (initial ∅) !! k = None
  /\ requests s = requests (initial ∅)
  /\ (requestUrl_of i k ∉ requests s).
Proof.
  intros i s k. repeat split.
  - vm_compute. right. left.
  - vm_compute. by intros ?%elem_of_nil.
Qed.

(** A key that is pending and not cached is requested again by the next
    run. *)
Example duplicate_request :
  let s := exec (ngOnChanges sample_inputs) (initial ∅) in
  let s' := exec (ngOnChanges sample_inputs) s in
  let k := js "aHR0cHM6Ly9leGFtcGxlLmNvbQ==" in
  hasPendingJobs s = true
  /\ bool_decide (k ∈ loadingMgr s) = true
  /\ requests s = [js "api.example.com/meta?url=aHR0cHM6Ly9leGFtcGxlLmNvbQ=="]
  /\ requests s'
     = [js "api.example.com/meta?url=aHR0cHM6Ly9leGFtcGxlLmNvbQ==";
        js "api.example.com/meta?url=aHR0cHM6Ly9leGFtcGxlLmNvbQ=="]
  /\ subscriptions s' = [k; k].
Proof. vm_compute. repeat split. Qed.

(** Previewing links that are all cached, with the cache in use: the
    cached records are appended in the order of the links and nothing else
    changes. *)
Lemma for_of_all_cached i ls ps :
  useCache i = true ->
  forall s,
    Forall2 (fun l p => exists k, encodeUrlSafe l = Ret k
                                  /\ cacheSvc s !! k = Some p) ls ps ->
    for_of ls (preview_link i) s = (set_previews (previews s ++ ps) s, Ret tt).
Proof.
  intros Hc s H. revert s H.
  induction ls as [|l ls IH] in ps |- *; intros s H.
  - apply Forall2_nil_inv_l in H as ->. simpl. unfold ret. f_equal.
    apply State_eq; simpl; try done. by rewrite app_nil_r.
  - apply Forall2_cons_inv_l in H as (p & ps' & (k & Hk & Hp) & H & ->).
    simpl. unfold bind. rewrite (preview_link_hit i l s k p) by done.
    rewrite (IH ps') by done. f_equal.
    apply State_eq; simpl; try done. by rewrite <- app_assoc.
Qed.

(** C3. For a candidate link whose encoded key has a cache entry, with the
    cache in use, the orchestrator appends the cached record to the visible
    list at once and dispatches no fetch for the link: previewing the link
    changes nothing but the visible list.  In particular a run all of whose
    candidate links are cached (such as a second run for a link whose first
    fetch has completed and been cached) shows the cached records and calls
    the request function zero times. *)
Theorem C3_cache_hit_no_fetch
        (i : Inputs) (s : State) (l k : jsstring) (p : OpenGraphMetaData) :
  useCache i = true -> encodeUrlSafe l = Ret k -> cacheSvc s !! k = Some p ->
  preview_link i l s = (set_previews (previews s ++ [p]) s, Ret tt)
  /\ (forall ps,
        configured i ->
        Forall2 (fun l' p' => exists k', encodeUrlSafe l' = Ret k'
                                         /\ cacheSvc s !! k' = Some p')
                (candidates i) ps ->
        result (ngOnChanges i) s = Ret tt
        /\ previews (exec (ngOnChanges i) s) = ps
        /\ requests (exec (ngOnChanges i) s) = requests s
        /\ subscriptions (exec (ngOnChanges i) s) = subscriptions s
        /\ loadingMgr (exec (ngOnChanges i) s) = loadingMgr s
        /\ cacheSvc (exec (ngOnChanges i) s) = cacheSvc s).
Proof.
  intros Hc Hk Hp.
  assert (Hall : forall ps,
    configured i ->
    Forall2 (fun l' p' => exists k', encodeUrlSafe l' = Ret k'
                                     /\ cacheSvc s !! k' = Some p')
            (candidates i) ps ->
    ngOnChanges i s
    = (set_scannedLinks (candidates i) (set_previews ps s), Ret tt)).
  { intros ps Hconf Hps. unfold ngOnChanges. rewrite init_configured by done.
    rewrite (for_of_all_cached i _ ps) by done. f_equal. }
  split; [by apply (preview_link_hit i l s k p)|].
  intros ps Hconf Hps. unfold result, exec. by rewrite (Hall ps).
Qed.

Lemma C3_cache_hit_no_fetch_witness :
  let i := sample_inputs in
  let l := js "https://example.com" in
  let k := js "aHR0cHM6Ly9leGFtcGxlLmNvbQ==" in
  let s := exec (emit k sample_meta) (exec (ngOnChanges i) (initial ∅)) in
  (useCache i = true /\ encodeUrlSafe l = Ret k
   /\ cacheSvc s !! k = Some sample_meta)
  /\ requests (exec (ngOnChanges i) s) = requests s
  /\ previews (exec (ngOnChanges i) s) = [sample_meta].
Proof.
  intros i l k s.
  assert (Hc : useCache i = true) by reflexivity.
  assert (Hk : encodeUrlSafe l = Ret k) by reflexivity.
  assert (Hp : cacheSvc s !! k = Some sample_meta) by reflexivity.
  split; [done|].
  destruct (C3_cache_hit_no_fetch i s l k sample_meta Hc Hk Hp)
    as (_ & Hrun).
  assert (Hconf : configured i) by (split; [reflexivity|by eexists]).
  assert (Hps : Forall2 (fun l' p' => exists k', encodeUrlSafe l' = Ret k'
                                        /\ cacheSvc s !! k' = Some p')
                        (candidates i) [sample_meta])
    by (repeat constructor; by exists k).
  destruct (Hrun [sample_meta] Hconf Hps) as (_ & Hprev & Hreq & _).
  done.
Defined.

(** ** Configuration errors *)

(** C1 (as amended). If the orchestrator is triggered with [apiRoute]
    absent or empty, or with the request function absent, it raises the
    configuration error after having reset the visible list: whatever the
    list held before, it is empty afterwards; no preview is appended, no
    fetch is dispatched, and the cache and the pending set are unchanged. *)
Theorem C1_configuration_error_resets_previews (i : Inputs) (s : State) :
  truthy (apiRoute i) = false \/ getApiEndpoint i = None ->
  (exists msg, result (ngOnChanges i) s = Throw (Error_ msg))
  /\ previews (exec (ngOnChanges i) s) = []
  /\ scannedLinks (exec (ngOnChanges i) s) = []
  /\ cacheSvc (exec (ngOnChanges i) s) = cacheSvc s
  /\ loadingMgr (exec (ngOnChanges i) s) = loadingMgr s
  /\ requests (exec (ngOnChanges i) s) = requests s
  /\ subscriptions (exec (ngOnChanges i) s) = subscriptions s
  /\ completed (exec (ngOnChanges i) s) = completed s.
Proof.
  intros H. destruct (init_not_configured i s H) as [msg Hrun].
  unfold result, exec, ngOnChanges. rewrite Hrun. simpl. eauto 10.
Qed.

Lemma C1_configuration_error_resets_previews_witness :
  let i := without_apiRoute sample_inputs in
  let s := set_previews [sample_meta] (initial ∅) in
  (truthy (apiRoute i) = false \/ getApiEndpoint i = None)
  /\ (exists msg, result (ngOnChanges i) s = Throw (Error_ msg))
  /\ previews (exec (ngOnChanges i) s) = [].
Proof.
  intros i s.
  assert (H : truthy (apiRoute i) = false \/ getApiEndpoint i = None)
    by (left; reflexivity).
  split; [done|].
  destruct (C1_configuration_error_resets_previews i s H) as (Hthrow & Hp & _).
  done.
Defined.

(** C1 as stated fails: with a non-empty visible list and no [apiRoute],
    the run raises the error, but the visible list has been emptied. *)
Lemma C1_previews_not_preserved :
  let i := without_apiRoute sample_inputs in
  let s := set_previews [sample_meta] (initial ∅) in
  previews s <> []
  /\ apiRoute i = None
  /\ result (ngOnChanges i) s
     = Throw (Error_ (js "<ngx-link-preview></ngx-link-preview> Missing [apiRoute] input parameter"))
  /\ previews (exec (ngOnChanges i) s) <> previews s.
Proof.
  intros i s. repeat split; try discriminate.
Qed.

(** ** Encoding errors *)

Lemma for_of_ok i f ls s :
  getApiEndpoint i = Some f -> Forall (fun l => latin1 l = true) ls ->
  result (for_of ls (preview_link i)) s = Ret tt.
Proof.
  intros Hf Hls.
  destruct (for_of_dispatches i f ls Hf Hls s) as (s' & new & Hrun & _).
  unfold result. by rewrite Hrun.
Qed.

(** C7 (as amended). If encoding a candidate link fails ([btoa] raises
    InvalidCharacterError for a link with a code unit above U+00FF), the
    error leaves the orchestration run: the links before the offending
    link have been processed, the offending link and every link after it
    are not processed. *)
Theorem C7_encoding_error_ends_run
        (i : Inputs) (s : State) (before : list jsstring) (bad : jsstring)
        (after : list jsstring) :
  configured i ->
  candidates i = before ++ bad :: after ->
  Forall (fun l => latin1 l = true) before ->
  latin1 bad = false ->
  ngOnChanges i s
  = (exec (for_of before (preview_link i))
          (set_scannedLinks (candidates i) (set_previews [] s)),
     Throw InvalidCharacterError).
Proof.
  intros Hconf Hcand Hbefore Hbad.
  unfold ngOnChanges. rewrite init_configured by done.
  set (s0 := set_scannedLinks (candidates i) (set_previews [] s)).
  rewrite Hcand, for_of_app.
  destruct Hconf as [_ [f Hf]].
  pose proof (for_of_ok i f before s0 Hf Hbefore) as Hok.
  unfold result, exec in *.
  destruct (for_of before (preview_link i) s0) as [s' o]. simpl in *.
  subst o. simpl. unfold bind.
  by rewrite (preview_link_throw i bad s' InvalidCharacterError)
    by by apply encodeUrlSafe_not_latin1.
Qed.

Lemma C7_encoding_error_ends_run_witness :
  let i := with_links [js "https://example.com"; js "https://ex" ++ [8364];
                       js "https://example.org"] sample_inputs in
  (configured i
   /\ candidates i
      = [js "https://example.com"] ++ (js "https://ex" ++ [8364])
        :: [js "https://example.org"]
   /\ Forall (fun l => latin1 l = true) [js "https://example.com"]
   /\ latin1 (js "https://ex" ++ [8364]) = false)
  /\ result (ngOnChanges i) (initial ∅) = Throw InvalidCharacterError
  /\ requests (exec (ngOnChanges i) (initial ∅))
     = [js "api.example.com/meta?url=aHR0cHM6Ly9leGFtcGxlLmNvbQ=="].
Proof.
  intros i.
  assert (Hconf : configured i) by (split; [reflexivity|by eexists]).
  assert (Hcand : candidates i
                  = [js "https://example.com"] ++ (js "https://ex" ++ [8364])
                    :: [js "https://example.org"]) by reflexivity.
  assert (Hbefore : Forall (fun l => latin1 l = true) [js "https://example.com"])
    by (repeat constructor).
  assert (Hbad : latin1 (js "https://ex" ++ [8364]) = false) by reflexivity.
  split; [done|].
  unfold result, exec.
  rewrite (C7_encoding_error_ends_run i (initial ∅) _ _ _ Hconf Hcand Hbefore Hbad).
  split; reflexivity.
Defined.

(** C7 as stated fails: the second link cannot be encoded, and the third
    link, which can, is never requested. *)
Lemma C7_sibling_links_not_processed :
  let i := with_links [js "https://example.com"; js "https://ex" ++ [8364];
                       js "https://example.org"] sample_inputs in
  let s := exec (ngOnChanges i) (initial ∅) in
  encodeUrlSafe (js "https://ex" ++ [8364]) = Throw InvalidCharacterError
  /\ encodeUrlSafe (js "https://example.org")
     = Ret (js "aHR0cHM6Ly9leGFtcGxlLm9yZw==")
  /\ cacheSvc (initial ∅) !! js "aHR0cHM6Ly9leGFtcGxlLm9yZw==" = None
  /\ js "https://example.org" ∈ scannedLinks s
  /\ result (ngOnChanges i) (initial ∅) = Throw InvalidCharacterError
  /\ (requestUrl_of i (js "aHR0cHM6Ly9leGFtcGxlLm9yZw==") ∉ requests s)
  /\ previews s = [].
Proof.
  intros i s. repeat split.
  - vm_compute. do 2 right. left.
  - vm_compute. intros H. apply list_elem_of_singleton in H. discriminate H.
Qed.

(** ** The matcher finds only what the pattern denotes *)

Lemma last_or_cons prev d w : last_or prev (d :: w) = last_or (Some d) w.
Proof. unfold last_or. rewrite last_cons. by destruct (last w). Qed.

Lemma last_or_app prev w1 w2 :
  last_or prev (w1 ++ w2) = last_or (last_or prev w1) w2.
Proof. unfold last_or. rewrite last_app. by destruct (last w2). Qed.

Section MatcherSound.
Context {A : Type}.
Implicit Types (k : option N -> jsstring -> option A) (a : A).

Lemma lit_match_sound l prev s k a :
  lit_match l prev s k = Some a ->
  exists w rest,
    s = w ++ rest
    /\ Forall2 (fun c d => ci_eq c d = true) l w
    /\ k (last_or prev w) rest = Some a.
Proof.
  revert prev s. induction l as [|c l IH]; intros prev s H; simpl in H.
  - exists [], s. by repeat split.
  - destruct s as [|d s]; [done|].
    destruct (ci_eq c d) eqn:Hcd; [|done].
    apply IH in H as (w & rest & -> & Hw & Hk).
    exists (d :: w), rest. rewrite last_or_cons.
    split; [done|]. split; [by constructor|done].
Qed.

Lemma rep_class_sound cls lo hi prev s k a :
  rep_class cls lo hi prev s k = Some a ->
  exists w rest,
    s = w ++ rest
    /\ Forall (fun d => cls d = true) w
    /\ (lo <= length w)%nat
    /\ match hi with Some h => (length w <= h)%nat | None => True end
    /\ k (last_or prev w) rest = Some a.
Proof.
  revert lo hi prev. induction s as [|d s IH]; intros lo hi prev H.
  - simpl in H. destruct lo; [|done].
    exists [], []. repeat split; auto. destruct hi; [simpl; lia|done].
  - assert (Hstop : match lo with O => k prev (d :: s) | S _ => None end
                    = Some a ->
            exists w rest,
              d :: s = w ++ rest
              /\ Forall (fun d => cls d = true) w
              /\ (lo <= length w)%nat
              /\ match hi with Some h => (length w <= h)%nat | None => True end
              /\ k (last_or prev w) rest = Some a).
    { destruct lo; [|done]. intros Hk.
      exists [], (d :: s). repeat split; auto.
      destruct hi; [simpl; lia|done]. }
    simpl in H.
    destruct (cls d && negb (bool_decide (hi = Some 0%nat))) eqn:Hd; [|auto].
    apply andb_true_iff in Hd as [Hd Hhi].
    apply negb_true_iff, bool_decide_eq_false in Hhi.
    destruct (rep_class cls (pred lo) (pred <$> hi) (Some d) s k) as [a'|]
      eqn:Hrec; [|auto].
    injection H as ->.
    apply IH in Hrec as (w & rest & -> & Hw & Hlo & Hh & Hk).
    exists (d :: w), rest. rewrite last_or_cons.
    split; [done|]. split; [by constructor|].
    split; [simpl; lia|]. split; [|done].
    destruct hi as [[|h]|]; simpl in *; [done|lia|done].
Qed.

Lemma rmatch_sound r prev s k a :
  rmatch r prev s k = Some a ->
  exists w rest,
    s = w ++ rest /\ Matches r prev w rest /\ k (last_or prev w) rest = Some a.
Proof.
  revert prev s k. induction r as [l|cls lo hi|r IH|r1 IH1 r2 IH2|];
    intros prev s k H; simpl in H.
  - apply lit_match_sound in H as (w & rest & ? & ? & ?). by exists w, rest.
  - apply rep_class_sound in H as (w & rest & ? & ? & ? & ? & ?).
    exists w, rest. simpl. auto.
  - destruct (rmatch r prev s k) as [a'|] eqn:Hr.
    + injection H as ->.
      apply IH in Hr as (w & rest & ? & ? & ?). exists w, rest. simpl. auto.
    + exists [], s. simpl. auto.
  - apply IH1 in H as (w1 & rest1 & -> & H1 & H).
    apply IH2 in H as (w2 & rest & -> & H2 & H).
    exists (w1 ++ w2), rest. rewrite last_or_app, <- app_assoc.
    split; [done|]. split; [|done]. simpl. by exists w1, w2.
  - destruct (xorb _ _) eqn:Hx; [|done].
    exists [], s. simpl. repeat split; auto.
    intros Heq. rewrite Heq in Hx. by rewrite xorb_nilpotent in Hx.
Qed.
End MatcherSound.

Lemma match_here_sound re prev s rest :
  match_here re prev s = Some rest ->
  exists w, s = w ++ rest /\ Matches re prev w rest.
Proof.
  intros H. apply rmatch_sound in H as (w & rest' & -> & Hw & [= ->]).
  by exists w.
Qed.

Lemma matches_in_order_skip re prev c s ms :
  matches_in_order re (Some c) s ms -> matches_in_order re prev (c :: s) ms.
Proof.
  intros H. inversion H as [|? gap w rest ms' Hw Hms]; subst; [constructor|].
  change (c :: gap ++ w ++ rest) with ((c :: gap) ++ w ++ rest).
  constructor; [by rewrite last_or_cons|].
  by rewrite <- app_comm_cons, last_or_cons.
Qed.

Lemma match_all_skip re u prev rest :
  match_all re (length u) prev (u ++ rest)
  = match_all re 0 (last_or prev u) rest.
Proof.
  revert prev. induction u as [|c u IH]; intros prev; [done|].
  simpl. by rewrite IH, last_or_cons.
Qed.

Lemma match_all_0 re prev s :
  match_all re 0 prev s =
  match match_here re prev s with
  | Some rest =>
      take (length s - length rest) s
      :: match s with
         | [] => []
         | c :: s' =>
             match_all re (pred (length s - length rest)) (Some c) s'
         end
  | None => match s with [] => [] | c :: s' => match_all re 0 (Some c) s' end
  end.
Proof. by destruct s. Qed.

(** The matches reported by [match_all] lie in the text from left to
    right, one after the other, and each is a match of the pattern. *)
Lemma match_all_in_order re s :
  forall skip prev, matches_in_order re prev s (match_all re skip prev s).
Proof.
  induction s as [s IH] using (induction_ltof1 _ (@length N)).
  unfold ltof in IH. intros skip prev.
  assert (Hnext : forall n,
    matches_in_order re prev s
      match s with [] => [] | c :: s' => match_all re n (Some c) s' end).
  { intros n. destruct s as [|c s']; [constructor|].
    apply matches_in_order_skip, IH. simpl. lia. }
  destruct skip as [|n]; [|destruct s; [constructor|apply (Hnext n)]].
  rewrite match_all_0.
  destruct (match_here re prev s) as [rest|] eqn:Hm; [|apply (Hnext 0%nat)].
  apply match_here_sound in Hm as (w & -> & Hw).
  rewrite length_app, Nat.add_sub, take_app_length.
  destruct w as [|d w].
  - apply (mio_cons re prev [] [] rest); [done|]. apply (Hnext 0%nat).
  - simpl. rewrite match_all_skip.
    apply (mio_cons re prev [] (d :: w) rest); [done|].
    simpl. rewrite last_or_cons. apply IH. rewrite length_app. simpl. lia.
Qed.

Lemma matches_in_order_has_match re w ms s :
  matches_in_order re None s (w :: ms) -> has_match re s.
Proof.
  intros H. inversion H as [|? gap ? rest ? Hw _]; subst.
  by exists gap, w, rest.
Qed.

(** Without a matching substring nothing is found. *)
Lemma js_match_none re s : ~ has_match re s -> js_match re s = None.
Proof.
  intros Hno. unfold js_match.
  pose proof (match_all_in_order re s 0%nat None) as H.
  destruct (match_all re 0 None s) as [|w ms]; [done|].
  by apply matches_in_order_has_match in H.
Qed.

(** ** The matcher finds a match whenever there is one *)

Section MatcherComplete.
Context {A : Type}.
Implicit Types (k : option N -> jsstring -> option A).

Lemma lit_match_complete l prev w rest k :
  Forall2 (fun c d => ci_eq c d = true) l w ->
  lit_match l prev (w ++ rest) k = k (last_or prev w) rest.
Proof.
  intros H. revert prev. induction H as [|c d l w Hcd _ IH]; intros prev.
  - done.
  - simpl. by rewrite Hcd, IH, last_or_cons.
Qed.

Lemma rep_class_complete cls lo hi prev w rest k :
  Forall (fun d => cls d = true) w ->
  (lo <= length w)%nat ->
  match hi with Some h => (length w <= h)%nat | None => True end ->
  is_Some (k (last_or prev w) rest) ->
  is_Some (rep_class cls lo hi prev (w ++ rest) k).
Proof.
  intros Hw. revert lo hi prev.
  induction Hw as [|d w Hd _ IH]; intros lo hi prev Hlo Hhi Hk.
  - simpl in Hlo. assert (lo = 0%nat) as -> by lia. simpl.
    destruct rest as [|d s]; simpl; [done|].
    destruct (cls d && _); [|done].
    by destruct (rep_class cls _ _ _ s k).
  - simpl.
    assert (bool_decide (hi = Some 0%nat) = false) as ->.
    { apply bool_decide_eq_false. intros ->. simpl in Hhi. lia. }
    rewrite Hd. simpl. rewrite last_or_cons in Hk.
    destruct (IH (pred lo) (pred <$> hi) (Some d)) as [a ->]; [| |done..].
    + simpl in Hlo. lia.
    + destruct hi as [h|]; simpl in *; [lia|done].
Qed.

Lemma rmatch_complete r prev w rest k :
  Matches r prev w rest ->
  is_Some (k (last_or prev w) rest) ->
  is_Some (rmatch r prev (w ++ rest) k).
Proof.
  revert prev w rest k.
  induction r as [l|cls lo hi|r IH|r1 IH1 r2 IH2|];
    intros prev w rest k Hm Hk; simpl in Hm |- *.
  - by rewrite lit_match_complete.
  - destruct Hm as (Hw & Hlo & Hhi). by apply rep_class_complete.
  - destruct Hm as [->|Hm].
    + simpl. by destruct (rmatch r prev rest k).
    + by destruct (IH prev w rest k Hm Hk) as [a ->].
  - destruct Hm as (w1 & w2 & -> & H1 & H2).
    rewrite <- app_assoc. apply IH1; [done|].
    apply IH2; [done|]. by rewrite <- last_or_app.
  - destruct Hm as [-> Hne]. simpl in *.
    by destruct (is_word_char prev), (is_word_char (head rest)).
Qed.
End MatcherComplete.

Lemma match_all_complete re before w after :
  forall skip prev,
    (skip <= length before)%nat ->
    Matches re (last_or prev before) w after ->
    match_all re skip prev (before ++ w ++ after) <> [].
Proof.
  induction before as [|c before IH]; intros skip prev Hskip Hm.
  - simpl in Hskip. assert (skip = 0%nat) as -> by lia.
    rewrite match_all_0. simpl app.
    destruct (rmatch_complete re prev w after (fun _ rest => Some rest) Hm)
      as [rest Hrest]; [done|].
    unfold match_here. by rewrite Hrest.
  - rewrite last_or_cons in Hm.
    destruct skip as [|n].
    + rewrite match_all_0.
      destruct (match_here re prev _); [done|]. simpl.
      apply IH; [lia|done].
    + simpl. apply IH; [simpl in Hskip; lia|done].
Qed.

(** [msg.match] returns [null] exactly when no substring matches. *)
Lemma js_match_None_iff re s : js_match re s = None <-> ~ has_match re s.
Proof.
  split; [|apply js_match_none].
  intros Hnone (before & w & after & -> & Hm).
  apply (match_all_complete re before w after 0%nat None) in Hm; [|lia].
  unfold js_match in Hnone.
  by destruct (match_all re 0 None (before ++ w ++ after)).
Qed.

Example has_match_example : has_match url_regex (js "go to http://b.org now").
Proof.
  apply (matches_in_order_has_match url_regex (js "http://b.org") []).
  exact (match_all_in_order url_regex (js "go to http://b.org now") 0%nat None).
Qed.

Example no_match_example : ~ has_match url_regex (js "http://b.example").
Proof. by apply js_match_None_iff. Qed.

(** ** The link extractor *)

(** C6 (as amended). The link extractor is total over strings: for every
    string it returns a sequence and never raises, and the sequence is
    empty when the string is empty or contains no substring matching the
    URL pattern.  For an absent ([null] or [undefined]) argument it raises
    a TypeError, but the orchestrator never passes one: it runs the
    extractor only over a present, non-empty text, and an absent or empty
    text contributes no link to the candidates. *)
Theorem C6_extractor_total_on_strings (msg : jsstring) :
  (exists found, parseStringForLinks (Some msg) = Ret found)
  /\ (msg = [] \/ ~ has_match url_regex msg ->
      parseStringForLinks (Some msg) = Ret [])
  /\ (forall i s,
        configured i -> truthy (parseForLinksStr i) = false ->
        scannedLinks (exec (ngOnChanges i) s) = explicit (links i)).
Proof.
  split; [apply parseStringForLinks_Some|]. split.
  - intros [->|Hno]; [reflexivity|].
    unfold parseStringForLinks. by rewrite js_match_none.
  - intros i s Hconf Htext. rewrite init_scannedLinks by done.
    unfold candidates, extracted.
    by destruct (parseForLinksStr i) as [[|c t]|].
Qed.

Lemma C6_extractor_total_on_strings_witness :
  (exists found, parseStringForLinks (Some []) = Ret found)
  /\ parseStringForLinks (Some []) = Ret []
  /\ scannedLinks (exec (ngOnChanges sample_inputs) (initial ∅))
     = [js "https://example.com"].
Proof.
  destruct (C6_extractor_total_on_strings []) as (Htotal & Hnone & Hguard).
  split; [done|]. split; [by apply Hnone; left|].
  apply (Hguard sample_inputs (initial ∅)); [|reflexivity].
  split; [reflexivity|by eexists].
Defined.

(** C6 as stated fails for an absent text: the extractor raises instead of
    returning the empty sequence. *)
Lemma C6_absent_text_raises :
  parseStringForLinks None = Throw TypeError
  /\ parseStringForLinks None <> Ret [].
Proof. split; [reflexivity|discriminate]. Qed.

(** C4. For every free text and explicit link list, the candidate links
    built by a run of the orchestrator are the links extracted from the
    text followed by the explicit links, each group in its own order; the
    extracted links lie in the text from left to right, one after the
    other, in the order in which they are listed. *)
Theorem C4_candidates_extracted_then_explicit (i : Inputs) (s : State) :
  configured i ->
  scannedLinks (exec (ngOnChanges i) s)
  = extracted (parseForLinksStr i) ++ explicit (links i)
  /\ forall text,
       parseForLinksStr i = Some text ->
       matches_in_order url_regex None text (extracted (Some text)).
Proof.
  intros Hconf. split; [by apply init_scannedLinks|].
  intros text _. destruct text as [|c t]; [constructor|].
  unfold extracted, parseStringForLinks, js_match.
  pose proof (match_all_in_order url_regex (c :: t) 0%nat None) as H.
  by destruct (match_all url_regex 0 None (c :: t)).
Qed.


Lemma C4_candidates_extracted_then_explicit_witness :
  let i := with_text (js "see https://a.example.com/x and http://b.org")
                     sample_inputs in
  configured i
  /\ scannedLinks (exec (ngOnChanges i) (initial ∅))
     = [js "https://a.example.com/x"; js "http://b.org";
        js "https://example.com"].
Proof.
  intros i.
  assert (Hconf : configured i) by (split; [reflexivity|by eexists]).
  split; [done|].
  destruct (C4_candidates_extracted_then_explicit i (initial ∅) Hconf) as [-> _].
  vm_compute. reflexivity.
Defined.

(** ** The cache and the pending set *)

Lemma latest_snoc k log k' r :
  latest k (log ++ [(k', r)])
  = if decide (k' = k) then Some r else latest k log.
Proof.
  induction log as [|[k0 r0] log IH]; simpl.
  - by destruct (decide (k' = k)).
  - rewrite IH. destruct (decide (k' = k)); [done|]. done.
Qed.


Lemma emit_state k r s :
  exec (emit k r) s
  = set_completed (completed s ++ [(k, r)])
      (set_previews (previews s ++ [r])
         (set_loadingMgr (loadingMgr s ∖ {[k]})
            (set_cacheSvc (<[k := r]> (cacheSvc s)) s))).
Proof. reflexivity. Qed.









(** One link, fetched once: the request URL is built from the route, the
    parameter name and the key; when the response arrives it is cached
    under the key and shown, and nothing is pending any more. *)
Example single_link_scenario :
  let k := js "aHR0cHM6Ly9leGFtcGxlLmNvbQ==" in
  let s1 := exec (ngOnChanges sample_inputs) (initial ∅) in
  let s2 := exec (emit k sample_meta) s1 in
  requests s1 = [js "api.example.com/meta?url=aHR0cHM6Ly9leGFtcGxlLmNvbQ=="]
  /\ previews s1 = [] /\ hasPendingJobs s1 = true
  /\ requests s2 = requests s1
  /\ previews s2 = [sample_meta] /\ hasPendingJobs s2 = false
  /\ cacheSvc s2 = {[ k := sample_meta ]}.
Proof. vm_compute. repeat split. Qed.

(** * Further properties of the code *)

(** ** The safe key encoder *)

(** X1. The key of a URL is its base64 text: the [encodeURI] step of
    [encodeUrlSafe] never changes what [btoa] returns and never raises.
    Hence [encodeUrlSafe] raises only InvalidCharacterError, and exactly
    for a URL with a code unit above U+00FF. *)
Theorem X1_encodeUrlSafe_is_btoa (u : jsstring) :
  encodeUrlSafe u = btoa u
  /\ (forall e, encodeUrlSafe u = Throw e ->
                e = InvalidCharacterError /\ Exists (fun c => 255 < c) u)
  /\ (Exists (fun c => 255 < c) u ->
      encodeUrlSafe u = Throw InvalidCharacterError).
Proof.
  assert (Hbad : latin1 u = false <-> Exists (fun c => 255 < c) u).
  { unfold latin1. induction u as [|c u IH]; simpl.
    - split; [done|by intros ?%Exists_nil].
    - rewrite Exists_cons, andb_false_iff, IH, N.leb_gt. done. }
  destruct (latin1 u) eqn:Hu.
  - rewrite encodeUrlSafe_latin1 by done. unfold btoa. rewrite Hu.
    split; [done|]. split; [done|].
    intros H%Hbad. done.
  - rewrite encodeUrlSafe_not_latin1 by done. unfold btoa. rewrite Hu.
    split; [done|]. split; [|done].
    intros e [= <-]. split; [done|]. by apply Hbad.
Qed.

(** X2. Two URLs with the same key are the same URL: the cache never
    confuses two links. *)
Theorem X2_encodeUrlSafe_injective (u1 u2 key : jsstring) :
  encodeUrlSafe u1 = Ret key -> encodeUrlSafe u2 = Ret key -> u1 = u2.
Proof.
  intros H1 H2.
  pose proof (encodeUrlSafe_Ret _ _ H1) as Hl1.
  pose proof (encodeUrlSafe_Ret _ _ H2) as Hl2.
  rewrite encodeUrlSafe_latin1 in H1, H2 by done.
  injection H1 as <-. injection H2 as H2.
  apply latin1_Forall in Hl1, Hl2.
  apply atob_b64_encode in Hl1, Hl2. rewrite H2 in Hl2. congruence.
Qed.

Lemma X2_encodeUrlSafe_injective_witness :
  (encodeUrlSafe (js "http://a.b") = Ret (js "aHR0cDovL2EuYg==")
   /\ encodeUrlSafe ([104; 116; 116; 112] ++ js "://a.b")
      = Ret (js "aHR0cDovL2EuYg=="))
  /\ js "http://a.b" = [104; 116; 116; 112] ++ js "://a.b".
Proof.
  assert (H1 : encodeUrlSafe (js "http://a.b") = Ret (js "aHR0cDovL2EuYg=="))
    by reflexivity.
  assert (H2 : encodeUrlSafe ([104; 116; 116; 112] ++ js "://a.b")
               = Ret (js "aHR0cDovL2EuYg==")) by reflexivity.
  split; [done|].
  exact (X2_encodeUrlSafe_injective _ _ _ H1 H2).
Defined.

Lemma b64_encode_length_exact l :
  length (b64_encode l) = (4 * ((length l + 2) / 3))%nat.
Proof.
  induction l as [|a|a b|a b c r IH] using list_ind3; try reflexivity.
  cbn [b64_encode length]. rewrite IH.
  replace (S (S (S (length r))) + 2)%nat with (1 * 3 + (length r + 2))%nat
    by lia.
  rewrite Nat.div_add_l by done. lia.
Qed.

(** X3. A key is four characters for every three code units of the URL,
    rounded up: its length is [4 * ceil(n / 3)]. *)
Theorem X3_key_length (u key : jsstring) :
  encodeUrlSafe u = Ret key ->
  length key = (4 * ((length u + 2) / 3))%nat.
Proof.
  intros H. pose proof (encodeUrlSafe_Ret _ _ H) as Hl.
  rewrite encodeUrlSafe_latin1 in H by done. injection H as <-.
  apply b64_encode_length_exact.
Qed.

Lemma X3_key_length_witness :
  encodeUrlSafe (js "https://example.com")
  = Ret (js "aHR0cHM6Ly9leGFtcGxlLmNvbQ==")
  /\ length (js "aHR0cHM6Ly9leGFtcGxlLmNvbQ==")
     = (4 * ((length (js "https://example.com") + 2) / 3))%nat.
Proof.
  assert (H : encodeUrlSafe (js "https://example.com")
              = Ret (js "aHR0cHM6Ly9leGFtcGxlLmNvbQ==")) by reflexivity.
  split; [done|].
  exact (X3_key_length _ _ H).
Defined.

(** ** The link extractor *)

(** X4. Whenever some substring of the text matches the URL pattern, the
    extractor returns at least one link. *)
Theorem X4_extractor_finds_a_link (msg : jsstring) :
  has_match url_regex msg ->
  exists w ms, parseStringForLinks (Some msg) = Ret (w :: ms).
Proof.
  intros Hm. unfold parseStringForLinks.
  destruct (js_match url_regex msg) as [[|w ms]|] eqn:Hjs.
  - unfold js_match in Hjs. by destruct (match_all url_regex 0 None msg).
  - eauto.
  - by apply js_match_None_iff in Hjs.
Qed.

Lemma X4_extractor_finds_a_link_witness :
  has_match url_regex (js "go to http://b.org now")
  /\ exists w ms,
       parseStringForLinks (Some (js "go to http://b.org now"))
       = Ret (w :: ms).
Proof.
  assert (H : has_match url_regex (js "go to http://b.org now")).
  { apply (matches_in_order_has_match url_regex (js "http://b.org") []).
    exact (match_all_in_order url_regex (js "go to http://b.org now")
                              0%nat None). }
  split; [done|].
  exact (X4_extractor_finds_a_link _ H).
Defined.

Lemma matches_in_order_Forall re prev s ms :
  matches_in_order re prev s ms ->
  Forall (fun w => exists p rest, Matches re p w rest) ms.
Proof. induction 1; constructor; eauto. Qed.

Lemma ci_eq_ascii c d : c < 128 -> ci_eq c d = true -> d < 128.
Proof.
  unfold ci_eq, swap_case, is_lower, is_upper, in_range.
  intros Hc H. repeat case_match; lia.
Qed.

Lemma ci_eq_lower c d :
  is_upper c = false -> ci_eq c d = true -> to_lower d = c.
Proof.
  unfold ci_eq, swap_case, to_lower, is_lower, is_upper, in_range.
  intros Hc H. repeat case_match; lia.
Qed.

Lemma lit_ascii l w :
  Forall (fun c => c < 128) l ->
  Forall2 (fun c d => ci_eq c d = true) l w ->
  Forall (fun d => d < 128) w.
Proof.
  intros Hl H. induction H as [|c d l w Hcd _ IH]; [done|].
  apply Forall_cons in Hl as [Hc Hl].
  constructor; [by apply (ci_eq_ascii c)|auto].
Qed.

Lemma lit_lower l w :
  Forall (fun c => is_upper c = false) l ->
  Forall2 (fun c d => ci_eq c d = true) l w ->
  map to_lower w = l.
Proof.
  intros Hl H. induction H as [|c d l w Hcd _ IH]; [done|].
  apply Forall_cons in Hl as [Hc Hl].
  simpl. by rewrite (ci_eq_lower c d), IH.
Qed.

Lemma is_alnum_ascii d : is_alnum d = true -> d < 123.
Proof. unfold is_alnum, is_upper, is_lower, is_digit, in_range. lia. Qed.

Lemma ci_class_ascii cls d :
  (forall c, cls c = true -> c < 128) -> ci_class cls d = true -> d < 128.
Proof.
  intros Hcls. unfold ci_class. intros [H|H]%orb_true_iff; [auto|].
  apply Hcls in H. revert H.
  unfold swap_case, is_lower, is_upper, in_range. repeat case_match; lia.
Qed.

Lemma one_of_In s c : one_of s c = true -> In c (js s).
Proof.
  unfold one_of. intros (d & Hd & ->%N.eqb_eq)%existsb_exists. done.
Qed.

Ltac one_of_ascii H :=
  apply one_of_In in H; vm_compute in H; intuition lia.

Lemma host_class_ascii c : host_class c = true -> c < 128.
Proof.
  unfold host_class. intros [H%is_alnum_ascii|H]%orb_true_iff; [lia|].
  one_of_ascii H.
Qed.

Lemma tld_class_ascii c : tld_class c = true -> c < 128.
Proof.
  unfold tld_class. intros [H%is_alnum_ascii|H]%orb_true_iff; [lia|].
  one_of_ascii H.
Qed.

Lemma path_class_ascii c : path_class c = true -> c < 128.
Proof.
  unfold path_class. intros [H%is_alnum_ascii|H]%orb_true_iff; [lia|].
  one_of_ascii H.
Qed.

(** What every match of the link pattern looks like. *)
Lemma url_match_shape prev w rest :
  Matches url_regex prev w rest ->
  Forall (fun c => c < 128) w
  /\ has_http_scheme w = true
  /\ (10 <= length w)%nat.
Proof.
  intros H. unfold url_regex in H. cbn [Matches] in H.
  destruct H as (w18 & w9 & -> & H & H9).
  destruct H as (w17 & w8 & -> & H & [-> _]).
  destruct H as (w16 & w7 & -> & H & H7).
  destruct H as (w15 & w6 & -> & H & H6).
  destruct H as (w14 & w5 & -> & H & H5).
  destruct H as (w13 & w4 & -> & H & H4).
  destruct H as (w12 & w3 & -> & H & H3).
  destruct H as (w1 & w2 & -> & H1 & H2).
  destruct H5 as (H5 & Hlen5 & _). destruct H7 as (H7 & Hlen7 & _).
  destruct H9 as (H9 & _).
  rewrite app_nil_r, <- !app_assoc.
  assert (Hs : Forall (fun c => c < 128) w2
               /\ (map to_lower w2 = [] \/ map to_lower w2 = js "s")).
  { destruct H2 as [->|H2]; [auto|]. split.
    - apply (lit_ascii (js "s")); [repeat constructor|done].
    - right. apply lit_lower; [repeat constructor|done]. }
  destruct Hs as [Hs2 Hs2'].
  assert (Hw4 : Forall (fun c => c < 128) w4).
  { destruct H4 as [->|(a & b & -> & Ha & Hb)]; [done|].
    apply Forall_app. split.
    - apply (lit_ascii (js "www")); [repeat constructor|done].
    - apply (lit_ascii (js ".")); [repeat constructor|done]. }
  split; [|split].
  - rewrite !Forall_app. repeat split; try done.
    + apply (lit_ascii (js "http")); [repeat constructor|done].
    + apply (lit_ascii (js "://")); [repeat constructor|done].
    + eapply Forall_impl; [exact H5|].
      intros d. apply ci_class_ascii, host_class_ascii.
    + apply (lit_ascii (js ".")); [repeat constructor|done].
    + eapply Forall_impl; [exact H7|].
      intros d. apply ci_class_ascii, tld_class_ascii.
    + eapply Forall_impl; [exact H9|].
      intros d. apply ci_class_ascii, path_class_ascii.
  - unfold has_http_scheme. rewrite !map_app.
    rewrite (lit_lower (js "http") w1), (lit_lower (js "://") w3);
      [|repeat constructor|done|repeat constructor|done].
    by destruct Hs2' as [->| ->].
  - apply Forall2_length in H1, H3, H6. rewrite !length_app.
    simpl in H1, H3, H6. lia.
Qed.

Lemma found_links_shape msg found :
  parseStringForLinks (Some msg) = Ret found ->
  Forall (fun w => exists p rest, Matches url_regex p w rest) found.
Proof.
  unfold parseStringForLinks, js_match. intros H.
  pose proof (match_all_in_order url_regex msg 0%nat None) as Hin.
  apply matches_in_order_Forall in Hin.
  destruct (match_all url_regex 0 None msg); injection H as <-; done.
Qed.

(** X5. Every link the extractor returns consists of ASCII characters only,
    starts with [http://] or [https://] in some letter case, and has at
    least ten characters. *)
Theorem X5_found_links_shape (msg : jsstring) (found : list jsstring) :
  parseStringForLinks (Some msg) = Ret found ->
  Forall (fun w => Forall (fun c => c < 128) w
                   /\ has_http_scheme w = true
                   /\ (10 <= length w)%nat) found.
Proof.
  intros H%found_links_shape. eapply Forall_impl; [exact H|].
  intros w (p & rest & Hw). by apply (url_match_shape p w rest).
Qed.

Lemma X5_found_links_shape_witness :
  parseStringForLinks (Some (js "see HTTPS://Example.com/a?b=1, or not"))
  = Ret [js "HTTPS://Example.com/a?b=1"]
  /\ Forall (fun w => Forall (fun c => c < 128) w
                      /\ has_http_scheme w = true
                      /\ (10 <= length w)%nat)
            [js "HTTPS://Example.com/a?b=1"].
Proof.
  assert (H : parseStringForLinks
                (Some (js "see HTTPS://Example.com/a?b=1, or not"))
              = Ret [js "HTTPS://Example.com/a?b=1"])
    by (vm_compute; reflexivity).
  split; [done|].
  exact (X5_found_links_shape _ _ H).
Defined.

Lemma ascii_latin1 w : Forall (fun c => c < 128) w -> latin1 w = true.
Proof.
  intros H. apply latin1_Forall. eapply Forall_impl; [exact H|].
  intros c Hc. simpl in Hc. lia.
Qed.

Lemma found_links_latin1 msg found :
  parseStringForLinks (Some msg) = Ret found ->
  Forall (fun w => latin1 w = true) found.
Proof.
  intros H%found_links_shape. eapply Forall_impl; [exact H|].
  intros w (p & rest & Hw). apply ascii_latin1.
  by apply (url_match_shape p w rest).
Qed.

(** X6. Every link the extractor returns can be encoded into a key, and
    the key decodes to the link: an encoding error never comes from a link
    found in the free text. *)
Theorem X6_found_links_encodable (msg : jsstring) (found : list jsstring) :
  parseStringForLinks (Some msg) = Ret found ->
  Forall (fun w => exists key, encodeUrlSafe w = Ret key
                               /\ decodeKey key = Ret w) found.
Proof.
  intros H%found_links_latin1. eapply Forall_impl; [exact H|].
  intros w Hw. exists (b64_encode w).
  split; [by apply encodeUrlSafe_latin1|].
  assert (Hplain : Forall (fun c => (c =? 37) = false) (b64_encode w)).
  { eapply Forall_impl; [by apply b64_encode_chars, latin1_Forall|].
    intros c Hc%key_char_props. unfold key_char_facts in Hc.
    repeat (apply andb_true_iff in Hc as [Hc ?]).
    by destruct (c =? 37). }
  unfold decodeKey, decodeURI. rewrite uri_decode_plain by done. simpl.
  by apply atob_b64_encode, latin1_Forall.
Qed.

Lemma X6_found_links_encodable_witness :
  parseStringForLinks (Some (js "see http://b.org")) = Ret [js "http://b.org"]
  /\ Forall (fun w => exists key, encodeUrlSafe w = Ret key
                                  /\ decodeKey key = Ret w)
            [js "http://b.org"].
Proof.
  assert (H : parseStringForLinks (Some (js "see http://b.org"))
              = Ret [js "http://b.org"]) by (vm_compute; reflexivity).
  split; [done|].
  exact (X6_found_links_encodable _ _ H).
Defined.

(** ** How a run ends *)

Lemma extracted_latin1 text :
  Forall (fun w => latin1 w = true) (extracted text).
Proof.
  unfold extracted. destruct text as [[|c t]|]; try done.
  destruct (parseStringForLinks (Some (c :: t))) as [found|e] eqn:H; [|done].
  by apply (found_links_latin1 (c :: t)).
Qed.

Lemma forallb_false_split {A} (f : A -> bool) (l : list A) :
  forallb f l = false ->
  exists before bad after,
    l = before ++ bad :: after
    /\ Forall (fun x => f x = true) before /\ f bad = false.
Proof.
  induction l as [|x l IH]; simpl; [done|].
  destruct (f x) eqn:Hx; simpl.
  - intros (before & bad & after & -> & Hb & Hbad)%IH.
    exists (x :: before), bad, after. repeat split; [|done]. by constructor.
  - intros _. exists [], x, l. by repeat split.
Qed.

Lemma for_of_first_bad i f before bad after s :
  getApiEndpoint i = Some f ->
  Forall (fun l => latin1 l = true) before -> latin1 bad = false ->
  result (for_of (before ++ bad :: after) (preview_link i)) s
  = Throw InvalidCharacterError.
Proof.
  intros Hf Hbefore Hbad. unfold result. rewrite for_of_app.
  pose proof (for_of_ok i f before s Hf Hbefore) as Hok. unfold result in Hok.
  destruct (for_of before (preview_link i) s) as [s' o]. simpl in Hok.
  subst o. simpl. unfold bind.
  by rewrite (preview_link_throw i bad s' InvalidCharacterError)
    by by apply encodeUrlSafe_not_latin1.
Qed.

(** X7. How a run of [init] ends depends on the inputs alone, neither on
    the state nor on the free text: a missing or empty [apiRoute] is
    reported first, then a missing request function; otherwise the run
    returns normally when every explicit link has only code units up to
    U+00FF, and raises InvalidCharacterError when one has not. *)
Theorem X7_run_outcome (i : Inputs) (s : State) :
  result (ngOnChanges i) s = run_outcome i.
Proof.
  unfold run_outcome.
  destruct (truthy (apiRoute i)) eqn:Hroute;
    [destruct (getApiEndpoint i) as [f|] eqn:Hf|]; simpl.
  - assert (Hconf : configured i) by (split; [done|by rewrite Hf]).
    unfold result, ngOnChanges. rewrite init_configured by done.
    unfold candidates.
    destruct (forallb latin1 (explicit (links i))) eqn:Hall.
    + apply (for_of_ok i f); [done|]. apply Forall_app. split.
      * apply extracted_latin1.
      * apply Forall_forall. intros l Hl. rewrite forallb_forall in Hall.
        by apply Hall, list_elem_of_In.
    + apply forallb_false_split in Hall
        as (before & bad & after & -> & Hb & Hbad).
      rewrite app_assoc.
      apply (for_of_first_bad i f); [done| |done].
      apply Forall_app. split; [apply extracted_latin1|done].
  - unfold result, ngOnChanges, init, checkInputParameters.
    unfold bind at 1 2 3. simpl. rewrite Hroute. simpl.
    by rewrite Hf.
  - unfold result, ngOnChanges, init, checkInputParameters.
    unfold bind at 1 2 3. simpl. by rewrite Hroute.
Qed.

(** ** What a run does *)

Lemma for_of_asynchronous i f ls :
  getApiEndpoint i = Some f -> (forall u, f u = []) ->
  forall s,
    for_of ls (preview_link i) s
    = ({| scannedLinks := scannedLinks s;
          previews := previews s ++ shown i s (reached ls);
          cacheSvc := cacheSvc s;
          loadingMgr := list_to_set (fetched i s (reached ls)) ∪ loadingMgr s;
          requests :=
            requests s ++ (requestUrl_of i <$> fetched i s (reached ls));
          subscriptions := subscriptions s ++ fetched i s (reached ls);
          completed := completed s |},
       if forallb latin1 ls then Ret tt else Throw InvalidCharacterError).
Proof.
  intros Hf Hasync. induction ls as [|l ls IH]; intros s.
  - simpl. unfold ret. f_equal. apply State_eq; simpl;
      rewrite ?app_nil_r; try done. by rewrite union_empty_l_L.
  - simpl for_of. unfold bind. simpl reached. simpl forallb.
    destruct (latin1 l) eqn:Hl; simpl.
    2:{ rewrite (preview_link_throw i l s InvalidCharacterError)
          by by apply encodeUrlSafe_not_latin1.
        f_equal. apply State_eq; simpl; rewrite ?app_nil_r; try done.
        by rewrite union_empty_l_L. }
    pose proof (encodeUrlSafe_latin1 l Hl) as Hk.
    unfold shown, fetched. simpl flat_map.
    fold (shown i s (reached ls)). fold (fetched i s (reached ls)).
    destruct (cached_record i s l) as [p|] eqn:Hrec.
    + unfold cached_record in Hrec. destruct (useCache i) eqn:Hc; [|done].
      rewrite (preview_link_hit i l s _ p Hk Hc Hrec), IH.
      f_equal. apply State_eq; simpl; try done.
      by rewrite <- app_assoc.
    + rewrite (preview_link_miss i l s _ f Hk Hf), Hasync.
      2:{ unfold cached_record in Hrec. destruct (useCache i); auto. }
      simpl for_of. unfold ret. rewrite IH.
      f_equal. apply State_eq; simpl; try done.
      * rewrite (assoc_L (∪)). f_equal. apply (comm_L (∪)).
      * by rewrite <- app_assoc.
      * by rewrite <- app_assoc.
Qed.

(** X8. With a request function whose observables emit nothing while they
    are being subscribed, a configured run of [init] is fully determined by
    the cache at its start and by the candidate links.  The run gets to the
    candidates before the first one that cannot be encoded (to all of them
    when every one can): of these, the cached ones are shown, in candidate
    order, and every other one becomes pending and is requested and
    subscribed once per occurrence, in candidate order; the cache is not
    written.  The run returns normally when every candidate can be encoded
    and raises InvalidCharacterError otherwise. *)
Theorem X8_asynchronous_run (i : Inputs) (s : State) :
  configured i -> asynchronous i ->
  ngOnChanges i s
  = ({| scannedLinks := candidates i;
        previews := shown i s (reached (candidates i));
        cacheSvc := cacheSvc s;
        loadingMgr :=
          list_to_set (fetched i s (reached (candidates i))) ∪ loadingMgr s;
        requests :=
          requests s
          ++ (requestUrl_of i <$> fetched i s (reached (candidates i)));
        subscriptions :=
          subscriptions s ++ fetched i s (reached (candidates i));
        completed := completed s |},
     if forallb latin1 (candidates i) then Ret tt
     else Throw InvalidCharacterError).
Proof.
  intros Hconf Hasync.
  unfold ngOnChanges. rewrite init_configured by done.
  destruct Hconf as [_ [f Hf]].
  rewrite (for_of_asynchronous i f); [done|done|].
  intros u. by apply (Hasync f).
Qed.

Lemma X8_asynchronous_run_witness :
  let i := with_links [js "http://a.b"; js "https://example.com";
                       js "https://ex" ++ [8364]; js "https://example.org"]
                      sample_inputs in
  let s := initial sample_cache in
  (configured i /\ asynchronous i)
  /\ result (ngOnChanges i) s = Throw InvalidCharacterError
  /\ previews (exec (ngOnChanges i) s) = [sample_meta]
  /\ requests (exec (ngOnChanges i) s)
     = [js "api.example.com/meta?url=aHR0cHM6Ly9leGFtcGxlLmNvbQ=="].
Proof.
  intros i s.
  assert (Hconf : configured i) by (split; [reflexivity|by eexists]).
  assert (Hasync : asynchronous i) by (by intros f u [= <-]).
  split; [done|]. unfold result, exec.
  rewrite (X8_asynchronous_run i s Hconf Hasync).
  repeat split; reflexivity.
Defined.

Lemma for_of_without_cache i f ls :
  getApiEndpoint i = Some f -> useCache i = false ->
  forall s, exists s',
    for_of ls (preview_link i) s
    = (s', if forallb latin1 ls then Ret tt else Throw InvalidCharacterError)
    /\ requests s'
       = requests s ++ (requestUrl_of i <$> (b64_encode <$> reached ls))
    /\ subscriptions s' = subscriptions s ++ (b64_encode <$> reached ls).
Proof.
  intros Hf Hc. induction ls as [|l ls IH]; intros s.
  - exists s. simpl. by rewrite !app_nil_r.
  - simpl for_of. unfold bind. simpl reached. simpl forallb.
    destruct (latin1 l) eqn:Hl; simpl.
    2:{ rewrite (preview_link_throw i l s InvalidCharacterError)
          by by apply encodeUrlSafe_not_latin1.
        exists s. by rewrite !app_nil_r. }
    pose proof (encodeUrlSafe_latin1 l Hl) as Hk.
    rewrite (preview_link_miss i l s _ f Hk Hf), for_of_emit by auto.
    match goal with |- context [for_of ls (preview_link i) ?s1] =>
      destruct (IH s1) as (s' & -> & Hr & Hs) end.
    exists s'. split; [done|]. rewrite Hr, Hs.
    destruct (f _); simpl; by rewrite <- !app_assoc.
Qed.

(** X9. With the cache switched off, a configured run requests and
    subscribes, cached or not, once per occurrence and in candidate order,
    every candidate link it gets to: the candidates before the first one
    that cannot be encoded, all of them when every one can.  It returns
    normally when every candidate can be encoded and raises
    InvalidCharacterError otherwise. *)
Theorem X9_run_without_cache (i : Inputs) (s : State) :
  configured i -> useCache i = false ->
  result (ngOnChanges i) s
  = (if forallb latin1 (candidates i) then Ret tt
     else Throw InvalidCharacterError)
  /\ requests (exec (ngOnChanges i) s)
     = requests s
       ++ (requestUrl_of i <$> (b64_encode <$> reached (candidates i)))
  /\ subscriptions (exec (ngOnChanges i) s)
     = subscriptions s ++ (b64_encode <$> reached (candidates i)).
Proof.
  intros Hconf Hc.
  unfold result, exec, ngOnChanges. rewrite init_configured by done.
  destruct Hconf as [_ [f Hf]].
  destruct (for_of_without_cache i f (candidates i) Hf Hc
              (set_scannedLinks (candidates i) (set_previews [] s)))
    as (s' & -> & Hr & Hs).
  done.
Qed.

Lemma X9_run_without_cache_witness :
  let i := without_cache
             (with_links [js "http://a.b"; js "https://ex" ++ [8364];
                          js "https://example.org"] sample_inputs) in
  let s := initial sample_cache in
  (configured i /\ useCache i = false)
  /\ cacheSvc s !! js "aHR0cDovL2EuYg==" = Some sample_meta
  /\ result (ngOnChanges i) s = Throw InvalidCharacterError
  /\ requests (exec (ngOnChanges i) s)
     = [js "api.example.com/meta?url=aHR0cDovL2EuYg=="].
Proof.
  intros i s.
  assert (Hconf : configured i) by (split; [reflexivity|by eexists]).
  assert (Hc : useCache i = false) by reflexivity.
  split; [done|]. split; [reflexivity|].
  destruct (X9_run_without_cache i s Hconf Hc) as (-> & -> & _).
  split; reflexivity.
Defined.

(** ** Invariants of a component instance *)

Section RunInvariant.
Variable P : State -> Prop.
Hypothesis P_scannedLinks : forall s v, P s -> P (set_scannedLinks v s).
Hypothesis P_reset : forall s, P s -> P (set_previews [] s).
Hypothesis P_hit :
  forall s k p, P s -> cacheSvc s !! k = Some p ->
                P (set_previews (previews s ++ [p]) s).
Hypothesis P_miss :
  forall s k u, P s ->
    P (set_subscriptions (subscriptions s ++ [k])
         (set_requests (requests s ++ [u])
            (set_loadingMgr ({[k]} ∪ loadingMgr s) s))).
Hypothesis P_emit :
  forall s k r, k ∈ subscriptions s -> P s -> P (exec (emit k r) s).

Lemma for_of_emit_inv k rs s :
  k ∈ subscriptions s -> P s -> P (exec (for_of rs (emit k)) s).
Proof.
  revert s. induction rs as [|r rs IH]; intros s Hk Hs; [done|].
  change (exec (for_of (r :: rs) (emit k)) s)
    with (exec (for_of rs (emit k)) (exec (emit k r) s)).
  apply IH; [done|]. by apply P_emit.
Qed.

Lemma preview_link_inv i f l s :
  getApiEndpoint i = Some f -> P s -> P (exec (preview_link i l) s).
Proof.
  intros Hf Hs.
  destruct (encodeUrlSafe l) as [k|e] eqn:Hk.
  2:{ unfold exec. by rewrite (preview_link_throw i l s e). }
  assert (Hmiss : useCache i = false \/ cacheSvc s !! k = None ->
                  P (exec (preview_link i l) s)).
  { intros Hm. unfold exec. rewrite (preview_link_miss i l s k f) by done.
    apply for_of_emit_inv; [|by apply P_miss].
    simpl. apply elem_of_app. right. left. }
  destruct (useCache i) eqn:Hc; [|auto].
  destruct (cacheSvc s !! k) as [p|] eqn:Hp; [|auto].
  unfold exec. rewrite (preview_link_hit i l s k p) by done.
  by apply (P_hit s k).
Qed.

Lemma init_inv i s : P s -> P (exec (ngOnChanges i) s).
Proof.
  intros Hs. unfold exec, ngOnChanges.
  destruct (init_cases i s) as [[[_ [f Hf]] ->]|[msg ->]]; simpl; [|auto].
  apply (for_of_preserves P (preview_link i)); [|auto].
  intros l s'. by apply (preview_link_inv i f).
Qed.

Lemma steps_inv s es s' : steps s es s' -> P s -> P s'.
Proof.
  induction 1 as [|s e s1 es s2 Hstep _ IH]; [done|].
  intros Hs. apply IH. destruct Hstep; [by apply init_inv|by apply P_emit].
Qed.
End RunInvariant.

Lemma latest_elem_of k r log : latest k log = Some r -> (k, r) ∈ log.
Proof.
  induction log as [|[k0 r0] log IH]; simpl; [done|].
  destruct (latest k log) as [r'|].
  - intros [= ->]. right. auto.
  - destruct (decide (k0 = k)) as [->|]; [|done]. intros [= ->]. left.
Qed.

(** X10. Whatever a component does, from any state, it changes the cache
    only by the responses its callbacks receive: afterwards each key holds
    the latest response received for it in the meantime or, when none was
    received, what it held before (nothing, when it held nothing).  So the
    component never deletes an entry and writes none of its own making. *)
Theorem X10_cache_is_latest_response
        (s : State) (es : list event) (s' : State) :
  steps s es s' ->
  exists new,
    completed s' = completed s ++ new
    /\ forall k, cacheSvc s' !! k
                 = match latest k new with
                   | Some r => Some r
                   | None => cacheSvc s !! k
                   end.
Proof.
  intros Hsteps.
  apply (steps_inv
           (fun s' => exists new,
              completed s' = completed s ++ new
              /\ forall k, cacheSvc s' !! k
                           = match latest k new with
                             | Some r => Some r
                             | None => cacheSvc s !! k
                             end)) with (s := s) (es := es); try done.
  - intros s0 k r _ (new & Hc & Hk). exists (new ++ [(k, r)]).
    rewrite emit_state. simpl. rewrite Hc, <- app_assoc. split; [done|].
    intros k'. rewrite latest_snoc, lookup_insert.
    destruct (decide (k = k')); [done|]. apply Hk.
  - exists []. by rewrite app_nil_r.
Qed.

Lemma X10_cache_is_latest_response_witness :
  let k := js "aHR0cHM6Ly9leGFtcGxlLmNvbQ==" in
  let s := initial sample_cache in
  let s' := exec (emit k other_meta) (exec (ngOnChanges sample_inputs) s) in
  steps s [Trigger sample_inputs; Emit k other_meta] s'
  /\ cacheSvc s' !! k = Some other_meta
  /\ cacheSvc s' !! js "aHR0cDovL2EuYg==" = Some sample_meta
  /\ exists new,
       completed s' = completed s ++ new
       /\ forall k', cacheSvc s' !! k'
                     = match latest k' new with
                       | Some r => Some r
                       | None => cacheSvc s !! k'
                       end.
Proof.
  intros k s s'.
  assert (Hsteps : steps s [Trigger sample_inputs; Emit k other_meta] s').
  { eapply steps_cons; [constructor|].
    eapply steps_cons; [|constructor].
    constructor. vm_compute. left. }
  split; [done|]. split; [reflexivity|]. split; [reflexivity|].
  exact (X10_cache_is_latest_response s _ s' Hsteps).
Defined.



(** X12. In every state a component reaches after its creation, whatever
    the cache held then, every pending key has a subscribed callback that
    can clear it, and the request function has been called exactly once
    per subscription. *)
Theorem X12_pending_keys_are_subscribed
        (cache0 : gmap jsstring OpenGraphMetaData)
        (es : list event) (s : State) :
  steps (initial cache0) es s ->
  (forall k, k ∈ loadingMgr s -> k ∈ subscriptions s)
  /\ length (requests s) = length (subscriptions s).
Proof.
  intros Hsteps.
  apply (steps_inv
           (fun s => (forall k, k ∈ loadingMgr s -> k ∈ subscriptions s)
                     /\ length (requests s) = length (subscriptions s)))
    with (s := initial cache0) (es := es); try done.
  - intros s0 k u [Hp Hl]. simpl. split.
    + intros k' [->%elem_of_singleton|Hk']%elem_of_union;
        apply elem_of_app; [right; left|auto].
    + rewrite !length_app. simpl. lia.
  - intros s0 k r _ [Hp Hl]. rewrite emit_state. simpl. split; [|done].
    intros k' [Hk' _]%elem_of_difference. auto.
Qed.

Lemma X12_pending_keys_are_subscribed_witness :
  let i := with_links [js "http://a.b"; js "https://example.com"]
                      sample_inputs in
  let s := exec (ngOnChanges i) (initial ∅) in
  steps (initial ∅) [Trigger i] s
  /\ (forall k, k ∈ loadingMgr s -> k ∈ subscriptions s)
  /\ length (requests s) = length (subscriptions s).
Proof.
  intros i s.
  assert (Hsteps : steps (initial ∅) [Trigger i] s)
    by (eapply steps_cons; constructor).
  split; [done|].
  exact (X12_pending_keys_are_subscribed _ _ s Hsteps).
Defined.

(** ** The requests of a run *)

Lemma decodeKey_b64_encode l :
  latin1 l = true -> decodeKey (b64_encode l) = Ret l.
Proof.
  intros Hl.
  assert (Hplain : Forall (fun c => (c =? 37) = false) (b64_encode l)).
  { eapply Forall_impl; [by apply b64_encode_chars, latin1_Forall|].
    intros c Hc%key_char_props. unfold key_char_facts in Hc.
    repeat (apply andb_true_iff in Hc as [Hc ?]).
    by destruct (c =? 37). }
  unfold decodeKey, decodeURI. rewrite uri_decode_plain by done. simpl.
  by apply atob_b64_encode, latin1_Forall.
Qed.

Lemma preview_link_requests i l s :
  requests (exec (preview_link i l) s) = requests s
  \/ (latin1 l = true
      /\ requests (exec (preview_link i l) s)
         = requests s ++ [requestUrl_of i (b64_encode l)]).
Proof.
  destruct (latin1 l) eqn:Hl.
  2:{ left. unfold exec.
      by rewrite (preview_link_throw i l s InvalidCharacterError)
        by by apply encodeUrlSafe_not_latin1. }
  pose proof (encodeUrlSafe_latin1 l Hl) as Hk.
  destruct (getApiEndpoint i) as [f|] eqn:Hf.
  - destruct (preview_link_effect i l s _ f Hk Hf) as (s' & Hrun & Heff).
    unfold exec. rewrite Hrun. simpl.
    destruct Heff as [(_ & _ & -> & _)|(_ & -> & _)]; auto.
  - left. unfold exec, preview_link, bind, lift. rewrite Hk.
    unfold getCacheItem, gets, ret, request. rewrite Hf.
    destruct (useCache i); [destruct (cacheSvc s !! b64_encode l)|]; done.
Qed.

Lemma for_of_requests_from i ls :
  forall s, exists new,
    requests (exec (for_of ls (preview_link i)) s) = requests s ++ new
    /\ Forall (fun r => exists l, l ∈ ls /\ latin1 l = true
                                  /\ r = requestUrl_of i (b64_encode l)) new.
Proof.
  induction ls as [|l ls IH]; intros s.
  - exists []. simpl. by rewrite app_nil_r.
  - assert (Hfirst : exists new1,
      requests (exec (preview_link i l) s) = requests s ++ new1
      /\ Forall (fun r => exists l', l' ∈ l :: ls /\ latin1 l' = true
                            /\ r = requestUrl_of i (b64_encode l')) new1).
    { destruct (preview_link_requests i l s) as [->|[Hl ->]].
      - exists []. by rewrite app_nil_r.
      - eexists. split; [done|]. repeat constructor.
        exists l. split; [left|done]. }
    destruct Hfirst as (new1 & Hr1 & Hnew1).
    unfold exec in *. simpl for_of. unfold bind.
    destruct (preview_link i l s) as [s1 [[]|e]]; simpl in Hr1 |- *.
    + destruct (IH s1) as (new & Hr & Hnew).
      exists (new1 ++ new). rewrite Hr, Hr1, <- app_assoc. split; [done|].
      apply Forall_app. split; [done|].
      eapply Forall_impl; [exact Hnew|].
      intros r (l' & Hl' & ?). exists l'. split; [by right|done].
    + by exists new1.
Qed.

(** X14. The requests a run adds are all for candidate links of the run:
    each request URL is the route, [?], the parameter name, [=] and the key
    of a candidate link, and removing that prefix and decoding the key
    (URI-unescape, then base64-decode) gives the link back. *)
Theorem X14_requests_are_for_candidates (i : Inputs) (s : State) :
  exists new,
    requests (exec (ngOnChanges i) s) = requests s ++ new
    /\ Forall (fun r =>
                 exists l, l ∈ candidates i
                   /\ encodeUrlSafe l = Ret (b64_encode l)
                   /\ r = request_prefix i ++ b64_encode l
                   /\ decodeKey (drop (length (request_prefix i)) r) = Ret l)
              new.
Proof.
  unfold exec, ngOnChanges.
  destruct (init_cases i s) as [[_ ->]|[msg ->]].
  - destruct (for_of_requests_from i (candidates i)
                (set_scannedLinks (candidates i) (set_previews [] s)))
      as (new & Hr & Hnew).
    exists new. split; [done|].
    eapply Forall_impl; [exact Hnew|].
    intros r (l & Hin & Hl & ->). exists l.
    assert (Hreq : requestUrl_of i (b64_encode l)
                   = request_prefix i ++ b64_encode l).
    { unfold requestUrl_of, request_prefix. by rewrite <- !app_assoc. }
    rewrite Hreq, drop_app_length.
    repeat split; [done|by apply encodeUrlSafe_latin1
                  |by apply decodeKey_b64_encode].
  - exists []. simpl. by rewrite app_nil_r.
Qed.

(** ** The image URL repair *)

(** X15. Every URL the image repair returns starts with [http] or with
    [www], and repairing is idempotent: a returned URL, given as the image
    of a record, is returned unchanged. *)
Theorem X15_repaired_image_url
        (p : OpenGraphMetaData) (r : jsstring) :
  getSanitizedImageUrl p = Ret (Some r) ->
  (startsWith r (js "http") = true \/ startsWith r (js "www") = true)
  /\ forall p', og_image p' = Some r ->
                getSanitizedImageUrl p' = Ret (Some r).
Proof.
  intros H.
  assert (Hr : startsWith r (js "http") = true
               \/ startsWith r (js "www") = true).
  { unfold getSanitizedImageUrl in H.
    destruct (og_image p) as [image|]; [|done].
    destruct (startsWith image (js "http")) eqn:H1; [injection H as <-; auto|].
    destruct (startsWith image (js "www")) eqn:H2; [injection H as <-; auto|].
    destruct (startsWith image (js "//www")); [injection H as <-; by left|].
    destruct (startsWith image (js "/yts/")); [injection H as <-; by left|].
    done. }
  split; [done|]. intros p' Hp'. unfold getSanitizedImageUrl. rewrite Hp'.
  destruct Hr as [-> | Hr]; [done|]. rewrite Hr.
  by destruct (startsWith r (js "http")).
Qed.

Lemma X15_repaired_image_url_witness :
  let p := {| title := None; description := None; siteName := None;
              og_image := Some (js "//www.example.com/i.png"); url := None;
              source := None |} in
  let p' := {| title := None; description := None; siteName := None;
               og_image := Some (js "https://www.example.com/i.png");
               url := None; source := None |} in
  getSanitizedImageUrl p = Ret (Some (js "https://www.example.com/i.png"))
  /\ startsWith (js "https://www.example.com/i.png") (js "http") = true
  /\ getSanitizedImageUrl p' = Ret (Some (js "https://www.example.com/i.png")).
Proof.
  intros p p'.
  assert (H : getSanitizedImageUrl p
              = Ret (Some (js "https://www.example.com/i.png")))
    by reflexivity.
  split; [done|].
  destruct (X15_repaired_image_url p _ H) as [_ Hidem].
  split; [reflexivity|]. by apply Hidem.
Defined.

(** ** The first link found is the leftmost match *)

Lemma match_here_None re prev s w rest :
  match_here re prev s = None -> s = w ++ rest -> ~ Matches re prev w rest.
Proof.
  intros Hnone -> Hm.
  destruct (rmatch_complete re prev w rest (fun _ r => Some r) Hm) as [r Hr];
    [done|].
  unfold match_here in Hnone. by rewrite Hr in Hnone.
Qed.

Lemma match_all_first re s :
  forall prev w ms,
    match_all re 0 prev s = w :: ms ->
    exists gap rest,
      s = gap ++ w ++ rest
      /\ Matches re (last_or prev gap) w rest
      /\ forall g1 g2 w' rest',
           gap = g1 ++ g2 -> g2 <> [] -> g2 ++ w ++ rest = w' ++ rest' ->
           ~ Matches re (last_or prev g1) w' rest'.
Proof.
  induction s as [|c s IH]; intros prev w ms; rewrite match_all_0.
  - destruct (match_here re prev []) as [r|] eqn:Hm; [|done].
    apply match_here_sound in Hm as (w0 & Hs & Hw).
    symmetry in Hs. apply app_eq_nil in Hs as [-> ->]. simpl.
    intros [= <- <-]. exists [], []. repeat split; [done|].
    intros g1 g2 w' rest' Hg Hne. symmetry in Hg.
    apply app_eq_nil in Hg as [_ ->]. done.
  - destruct (match_here re prev (c :: s)) as [r|] eqn:Hm.
    + apply match_here_sound in Hm as (w0 & Hs & Hw).
      rewrite Hs, length_app, Nat.add_sub, take_app_length.
      intros [= <- _]. exists [], r. repeat split; [done..|].
      intros g1 g2 w' rest' Hg Hne. symmetry in Hg.
      apply app_eq_nil in Hg as [_ ->]. done.
    + intros (gap & rest & -> & Hw & Hleft)%IH.
      exists (c :: gap), rest. rewrite last_or_cons.
      repeat split; [done|].
      intros g1 g2 w' rest' Hg Hne Hsplit.
      destruct g1 as [|c' g1]; simpl in Hg.
      * subst g2. by apply (match_here_None re prev _ w' rest' Hm).
      * injection Hg as <- ->. rewrite last_or_cons.
        by apply (Hleft g1 g2).
Qed.

(** X16. The first link the extractor returns is the leftmost match of
    the pattern: the text is a gap, the link and a rest, the link matches
    the pattern there, and no match of the pattern starts within the gap. *)
Theorem X16_first_link_is_leftmost
        (msg w : jsstring) (ms : list jsstring) :
  parseStringForLinks (Some msg) = Ret (w :: ms) ->
  exists gap rest,
    msg = gap ++ w ++ rest
    /\ Matches url_regex (last_or None gap) w rest
    /\ forall g1 g2 w' rest',
         gap = g1 ++ g2 -> g2 <> [] -> g2 ++ w ++ rest = w' ++ rest' ->
         ~ Matches url_regex (last_or None g1) w' rest'.
Proof.
  unfold parseStringForLinks, js_match. intros H.
  apply (match_all_first url_regex msg None w ms).
  destruct (match_all url_regex 0 None msg); [done|]. congruence.
Qed.

Lemma X16_first_link_is_leftmost_witness :
  parseStringForLinks (Some (js "at http://a.bc or http://d.ef"))
  = Ret [js "http://a.bc"; js "http://d.ef"]
  /\ exists gap rest,
       js "at http://a.bc or http://d.ef" = gap ++ js "http://a.bc" ++ rest
       /\ Matches url_regex (last_or None gap) (js "http://a.bc") rest
       /\ forall g1 g2 w' rest',
            gap = g1 ++ g2 -> g2 <> [] ->
            g2 ++ js "http://a.bc" ++ rest = w' ++ rest' ->
            ~ Matches url_regex (last_or None g1) w' rest'.
Proof.
  assert (H : parseStringForLinks (Some (js "at http://a.bc or http://d.ef"))
              = Ret [js "http://a.bc"; js "http://d.ef"])
    by (vm_compute; reflexivity).
  split; [done|].
  exact (X16_first_link_is_leftmost _ _ _ H).
Defined.

(** ** Responses *)

(** X17. Responses alone dispatch nothing: when the subscribed callbacks
    receive a series of responses, these are appended to the visible list
    in the order of arrival, their keys leave the pending set, and no
    request or subscription is made; once every pending key has had a
    response, nothing is pending and the loading indicator is off. *)
Theorem X17_responses_in_arrival_order
        (s : State) (rs : list (jsstring * OpenGraphMetaData)) (s' : State) :
  steps s ((fun kr => Emit kr.1 kr.2) <$> rs) s' ->
  previews s' = previews s ++ rs.*2
  /\ loadingMgr s' = loadingMgr s ∖ list_to_set rs.*1
  /\ requests s' = requests s
  /\ subscriptions s' = subscriptions s
  /\ (loadingMgr s ⊆ list_to_set rs.*1 -> hasPendingJobs s' = false).
Proof.
  intros Hsteps.
  assert (H : previews s' = previews s ++ rs.*2
              /\ loadingMgr s' = loadingMgr s ∖ list_to_set rs.*1
              /\ requests s' = requests s
              /\ subscriptions s' = subscriptions s).
  { revert s Hsteps. induction rs as [|[k r] rs IH]; intros s Hsteps.
    - inversion Hsteps; subst. simpl.
      rewrite app_nil_r, difference_empty_L. done.
    - inversion Hsteps as [|? ? s1 ? ? Hstep Hrest]; subst.
      inversion Hstep as [|? ? ? Hsub]; subst.
      apply IH in Hrest as (-> & -> & -> & ->). rewrite emit_state. simpl.
      repeat split; [by rewrite <- app_assoc|].
      apply set_eq. intros x.
      rewrite !elem_of_difference, elem_of_union, elem_of_singleton.
      tauto. }
  destruct H as (Hp & Hl & Hr & Hs). repeat split; try done.
  intros Hall. unfold hasPendingJobs. apply bool_decide_eq_false.
  intros Hne. apply Hne. rewrite Hl. apply set_eq. intros x.
  rewrite elem_of_difference. split; [|by intros ?%elem_of_empty].
  intros [Hx Hnx]. destruct Hnx. by apply Hall.
Qed.

Lemma X17_responses_in_arrival_order_witness :
  let i := with_links [js "http://a.b"; js "https://example.com"]
                      sample_inputs in
  let s := exec (ngOnChanges i) (initial ∅) in
  let k1 := js "aHR0cHM6Ly9leGFtcGxlLmNvbQ==" in
  let k2 := js "aHR0cDovL2EuYg==" in
  let s' := exec (emit k2 sample_meta) (exec (emit k1 sample_meta) s) in
  steps s ((fun kr => Emit kr.1 kr.2) <$> [(k1, sample_meta); (k2, sample_meta)])
        s'
  /\ hasPendingJobs s = true
  /\ previews s' = [sample_meta; sample_meta]
  /\ hasPendingJobs s' = false.
Proof.
  intros i s k1 k2 s'.
  assert (Hsteps : steps s ((fun kr => Emit kr.1 kr.2)
                              <$> [(k1, sample_meta); (k2, sample_meta)]) s').
  { eapply steps_cons; [constructor; vm_compute; right; left|].
    eapply steps_cons; [constructor; vm_compute; left|constructor]. }
  split; [done|]. split; [reflexivity|].
  destruct (X17_responses_in_arrival_order _ _ _ Hsteps)
    as (Hp & _ & _ & _ & Hoff).
  split; [exact Hp|]. apply Hoff.
  assert (Heq : loadingMgr s = list_to_set [k1; k2])
    by (vm_compute; reflexivity).
  by rewrite Heq.
Defined.
